(** * web-analyzer: the link-accessibility validator

    A shallow embedding of [internal/analyzer/network.go]: the per-URL probe
    [linkAccessibilityChecker], the page loader [loadWebPage] and the
    validator [validateLinkAccessibility].

    The repository holds two snapshots of the file.  They share the probe;
    they differ in the validator and in the tail of [loadWebPage]:
    - [PerLink]: src/internal/analyzer/network.go, one goroutine per link;
    - [Pool]: src/unnamed/part_000, a pool of at most [numWorkers] workers
      fed from a job queue.

    The [slog] calls are telemetry only and are not modelled. *)

From stdpp Require Import prelude strings relations gmap.

Local Open Scope Z_scope.

(** ** Constants *)

(** [time.Duration] is an [int64] count of nanoseconds. *)
Definition Second : Z := 1000000000.

Definition maxRetries : nat := 3.
Definition initialBackoff : Z := 1 * Second.
Definition numWorkers : nat := 10.

(** [client = &http.Client{Timeout: 10 * time.Second}] *)
Definition clientTimeout : Z := 10 * Second.

(** Two's complement wrap-around of [int64] arithmetic ([backoff *= 2]). *)
Definition wrap64 (z : Z) : Z := (z + 2 ^ 63) `mod` 2 ^ 64 - 2 ^ 63.

(** ** The network and the context, as the probe sees them *)

Inductive NetError := ErrRefused | ErrTimeout | ErrCanceled.

(** What [client.Do] hands back: [err != nil], or a response with its
    status code. *)
Inductive DoResult :=
| DoErr (e : NetError)
| DoResp (StatusCode : Z).

(** What the remote end does with one request when it is let run: how long
    it takes and what comes back. *)
Record Reply := { latency : N; outcome : DoResult }.

(** A [context.Context]: the instant (if any) at which it is cancelled. *)
Record Context := { cancelAt : option Z }.

Definition ctxDone (ctx : Context) (t : Z) : bool :=
  match cancelAt ctx with
  | Some c => c <=? t
  | None => false
  end.

(** [client.Do(req)] for a request built with [ctx], issued at time [t]:
    the result and the time at which the call returns.  A request whose
    context is done fails at once; otherwise the first of cancellation,
    client timeout and the reply decides. *)
Definition clientDo (ctx : Context) (r : Reply) (t : Z) : DoResult * Z :=
  if ctxDone ctx t then (DoErr ErrCanceled, t)
  else
    let arrive := t + Z.of_N (latency r) in
    let deadline := t + clientTimeout in
    let uncancelled :=
      if deadline <=? arrive then (DoErr ErrTimeout, deadline)
      else (outcome r, arrive) in
    match cancelAt ctx with
    | Some c =>
        if (c <=? arrive) && (c <=? deadline) then (DoErr ErrCanceled, c)
        else uncancelled
    | None => uncancelled
    end.

(** [time.Sleep(d)]: returns at once when [d <= 0]; it takes no context. *)
Definition sleep (d : Z) (t : Z) : Z := t + Z.max 0 d.

(** [resp.StatusCode >= 200 && resp.StatusCode < 300] *)
Definition is2xx (status : Z) : bool := (200 <=? status) && (status <? 300).

(** An attempt succeeded: [err == nil] and the status is 2xx. *)
Definition succeeded (r : DoResult) : bool :=
  match r with
  | DoErr _ => false
  | DoResp s => is2xx s
  end.

(** ** The probe: [linkAccessibilityChecker] *)

(** The effects of one probe, in program order. *)
Inductive Event :=
| EvRequestError
    (* http.NewRequestWithContext failed *)
| EvDo (attempt : nat) (start finish : Z) (r : DoResult)
    (* client.Do on attempt [i+1], from [start] to [finish] *)
| EvSleep (d : Z)
    (* time.Sleep(backoff) *)
| EvSend (url : string).
    (* inaccessibleLinks <- url *)

Section probe.
(** [newRequestOK url]: [http.NewRequestWithContext(ctx, "GET", url, nil)]
    returns no error, i.e. Go's [net/url] parses [url]. *)
Context (newRequestOK : string → bool).
Context (ctx : Context) (url : string).
(** [srv i]: the remote end's reply to the request of iteration [i]. *)
Context (srv : nat → Reply).

(** [for i := 0; i < maxRetries; i++ { ... }] with [fuel = maxRetries - i];
    the statements after the loop run when the fuel is spent. *)
Fixpoint checkerLoop (fuel i : nat) (backoff t : Z) : list Event * Z :=
  match fuel with
  | O => ([EvSend url], t)
  | S fuel' =>
      if negb (newRequestOK url) then ([EvRequestError; EvSend url], t)
      else
        let '(r, t1) := clientDo ctx (srv i) t in
        let retry :=
          let '(evs, te) :=
            checkerLoop fuel' (S i) (wrap64 (backoff * 2)) (sleep backoff t1) in
          (EvDo (S i) t t1 r :: EvSleep backoff :: evs, te) in
        match r with
        | DoErr _ => retry
        | DoResp s => if is2xx s then ([EvDo (S i) t t1 r], t1) else retry
        end
  end.

Record ProbeRun := { events : list Event; finished : Z }.

Definition linkAccessibilityChecker (t0 : Z) : ProbeRun :=
  let '(evs, te) := checkerLoop maxRetries 0 initialBackoff t0 in
  {| events := evs; finished := te |}.
End probe.

(** Observations on a trace. *)
Definition sent (evs : list Event) : list string :=
  omap (λ e, match e with EvSend u => Some u | _ => None end) evs.

Definition attempts (evs : list Event) : nat :=
  length (omap (λ e, match e with EvDo a _ _ _ => Some a | _ => None end) evs).

Definition sleeps (evs : list Event) : list Z :=
  omap (λ e, match e with EvSleep d => Some d | _ => None end) evs.

(** The probe's verdict is its send: [Inaccessible] iff the URL went into
    the channel. *)
Definition inaccessible (run : ProbeRun) : bool :=
  bool_decide (sent (events run) ≠ []).

(** ** The page loader: [loadWebPage] *)

(** Errors a caller of this package can receive. *)
Inductive Error :=
| NetErr (e : NetError)
    (* an error of net/http, handed on as it is *)
| AccessDenied (status : Z).
    (* fmt.Errorf("access denied to the page %v", data) *)

(** The pair [(data, err)] that [http.Get] returns: exactly one of the two
    is non-nil.  A response is represented by its status code. *)
Definition httpGet (r : DoResult) : option Z * option NetError :=
  match r with
  | DoErr e => (None, Some e)
  | DoResp s => (Some s, None)
  end.

(** [err == nil && data.StatusCode >= 200 && data.StatusCode < 300] *)
Definition fetched (data : option Z) (err : option NetError) : bool :=
  match err, data with
  | None, Some s => is2xx s
  | _, _ => false
  end.

Section load.
(** [get i]: what the [i]-th call of [http.Get(pageURL)] comes back with. *)
Context (get : nat → DoResult).

(** The retry loop.  [inl s]: [return data, nil] from inside the loop;
    [inr (data, err, slept)]: the loop ran out, with the variables [data]
    and [err] as the last iteration left them and the backoffs slept.
    [math.Pow(2, float64(i))] is exact for the [i] that occur. *)
Fixpoint loadLoop (fuel i : nat) (data : option Z) (err : option NetError)
    (slept : list Z) : Z + (option Z * option NetError * list Z) :=
  match fuel with
  | O => inr (data, err, slept)
  | S fuel' =>
      let '(data, err) := httpGet (get i) in
      if fetched data err then inl (default 0 data)
      else
        let slept :=
          if (i <? maxRetries - 1)%nat
          then slept ++ [initialBackoff * 2 ^ Z.of_nat i] else slept in
        loadLoop fuel' (S i) data err slept
  end.
End load.

(** What [loadWebPage] returns: a response pointer and an error, each of
    which may be nil. *)
Definition LoadResult : Type := option Z * option Error.

(** ** The validator's shared vocabulary *)

Record LinkAnalysis := {
  InternalLinks : list string;
  ExternalLinks : list string
}.

(** [pageLinks := append(analysis.InternalLinks, analysis.ExternalLinks...)] *)
Definition pageLinks (analysis : LinkAnalysis) : list string :=
  InternalLinks analysis ++ ExternalLinks analysis.

(** A buffered [chan string]. *)
Record Chan := { buf : list string; cap : nat; closed : bool }.

(** [make(chan string, n)] *)
Definition makeChan (n : nat) : Chan := {| buf := []; cap := n; closed := false |}.

Definition hasRoom (c : Chan) : bool := (length (buf c) <? cap c)%nat.
Definition push (u : string) (c : Chan) : Chan :=
  {| buf := buf c ++ [u]; cap := cap c; closed := closed c |}.
Definition setBuf (q : list string) (c : Chan) : Chan :=
  {| buf := q; cap := cap c; closed := closed c |}.
Definition close (c : Chan) : Chan :=
  {| buf := buf c; cap := cap c; closed := true |}.

(** The world around one validation run.  The probe of the link at
    position [j] of [pageLinks] starts at [envStart j] and its request of
    iteration [i] is answered by [envReply j i]. *)
Record Env := {
  envCtx : Context;
  envRequestOK : string → bool;
  envStart : nat → Z;
  envReply : nat → nat → Reply
}.

Definition probe (env : Env) (j : nat) (url : string) : ProbeRun :=
  linkAccessibilityChecker (envRequestOK env) (envCtx env) url
    (envReply env j) (envStart env j).

(** The URLs, in link order, whose probe ended [Inaccessible]. *)
Fixpoint failuresFrom (env : Env) (j : nat) (links : list string) : list string :=
  match links with
  | [] => []
  | u :: links' =>
      (if inaccessible (probe env j u) then [u] else [])
        ++ failuresFrom env (S j) links'
  end.

Definition failures (env : Env) (links : list string) : list string :=
  failuresFrom env 0 links.

(** Who runs next. *)
Inductive Choice := RunMain | RunCloser | RunWorker (w : nat).

Local Close Scope Z_scope.

(** ** Snapshot one: src/internal/analyzer/network.go *)

Module PerLink.

(** [loadWebPage]: after the loop, [return nil, err]. *)
Definition loadWebPage (get : nat → DoResult) : LoadResult :=
  match loadLoop get maxRetries 0 None None [] with
  | inl s => (Some s, None)
  | inr (_, err, _) => (None, NetErr <$> err)
  end.

(** One [go linkAccessibilityChecker(ctx, logger, link, &wg, ch)]:
    about to probe, about to send, or returned ([defer wg.Done()] ran). *)
Inductive Goroutine :=
| GProbe (url : string)
| GSend (url : string)
| GDone.

(** Where [validateLinkAccessibility] stands. *)
Inductive Main :=
| MSpawn (rest : list string)
    (* for _, link := range pageLinks { wg.Add(1); go ... } *)
| MWait
    (* wg.Wait(); close(inaccessibleLinks) *)
| MCollect (failedLinks : list string)
    (* for link := range inaccessibleLinks { append } *)
| MReturned (failedLinks : list string) (err : option Error)
| MPanic.
    (* a send on a closed channel *)

Record State := {
  pc : Main;
  goroutines : list Goroutine;
  wg : nat;
  inaccessibleLinks : Chan
}.

(** The function up to its first blocking point.  With no links it has
    returned [nil, nil] before any channel or goroutine exists; the
    channel of that state is a placeholder. *)
Definition validateLinkAccessibility (analysis : LinkAnalysis) : State :=
  let totalLinks := length (pageLinks analysis) in
  if totalLinks =? 0
  then {| pc := MReturned [] None; goroutines := []; wg := 0;
          inaccessibleLinks := makeChan 0 |}
  else {| pc := MSpawn (pageLinks analysis); goroutines := []; wg := 0;
          inaccessibleLinks := makeChan totalLinks |}.

Definition mainStep (s : State) : option State :=
  match pc s with
  | MSpawn (link :: rest) =>
      Some {| pc := MSpawn rest;
              goroutines := goroutines s ++ [GProbe link];
              wg := S (wg s);
              inaccessibleLinks := inaccessibleLinks s |}
  | MSpawn [] =>
      Some {| pc := MWait; goroutines := goroutines s; wg := wg s;
              inaccessibleLinks := inaccessibleLinks s |}
  | MWait =>
      if wg s =? 0
      then Some {| pc := MCollect []; goroutines := goroutines s; wg := wg s;
                   inaccessibleLinks := close (inaccessibleLinks s) |}
      else None
  | MCollect failedLinks =>
      match buf (inaccessibleLinks s) with
      | link :: q =>
          Some {| pc := MCollect (failedLinks ++ [link]);
                  goroutines := goroutines s; wg := wg s;
                  inaccessibleLinks := setBuf q (inaccessibleLinks s) |}
      | [] =>
          if closed (inaccessibleLinks s)
          then Some {| pc := MReturned failedLinks None;
                       goroutines := goroutines s; wg := wg s;
                       inaccessibleLinks := inaccessibleLinks s |}
          else None
      end
  | MReturned _ _ | MPanic => None
  end.

(** After a panic the process is gone. *)
Definition crashed (m : Main) : bool :=
  match m with MPanic => true | _ => false end.

(** Goroutine [j] runs to its next blocking point.  The probe itself
    touches nothing shared, so it is one step; the send is the next. *)
Definition goroutineStep (env : Env) (j : nat) (s : State) : option State :=
  if crashed (pc s) then None else
  match goroutines s !! j with
  | Some (GProbe url) =>
      match sent (events (probe env j url)) with
      | [] =>
          Some {| pc := pc s; goroutines := <[j := GDone]> (goroutines s);
                  wg := pred (wg s);
                  inaccessibleLinks := inaccessibleLinks s |}
      | u :: _ =>
          Some {| pc := pc s; goroutines := <[j := GSend u]> (goroutines s);
                  wg := wg s; inaccessibleLinks := inaccessibleLinks s |}
      end
  | Some (GSend u) =>
      if closed (inaccessibleLinks s)
      then Some {| pc := MPanic; goroutines := <[j := GDone]> (goroutines s);
                   wg := wg s; inaccessibleLinks := inaccessibleLinks s |}
      else if hasRoom (inaccessibleLinks s)
      then Some {| pc := pc s; goroutines := <[j := GDone]> (goroutines s);
                   wg := pred (wg s);
                   inaccessibleLinks := push u (inaccessibleLinks s) |}
      else None
  | _ => None
  end.

Definition stepFn (env : Env) (c : Choice) (s : State) : option State :=
  match c with
  | RunMain => mainStep s
  | RunCloser => None
  | RunWorker j => goroutineStep env j s
  end.

Definition step (env : Env) : relation State :=
  λ s s', ∃ c, stepFn env c s = Some s'.

(** Run a schedule; a choice that cannot move is skipped. *)
Fixpoint exec (env : Env) (sched : list Choice) (s : State) : State :=
  match sched with
  | [] => s
  | c :: sched' => exec env sched' (default s (stepFn env c s))
  end.

(** [validateLinkAccessibility] returns [(failedLinks, err)] on some
    interleaving of its goroutines. *)
Definition returns (env : Env) (analysis : LinkAnalysis)
    (failedLinks : list string) (err : option Error) : Prop :=
  ∃ s, rtc (step env) (validateLinkAccessibility analysis) s
       ∧ pc s = MReturned failedLinks err.

End PerLink.

(** ** Snapshot two: src/unnamed/part_000 *)

Module Pool.

(** [loadWebPage]: after the loop,
    [if data != nil && err == nil { return nil, issue } else { return nil, err }]. *)
Definition loadWebPage (get : nat → DoResult) : LoadResult :=
  match loadLoop get maxRetries 0 None None [] with
  | inl s => (Some s, None)
  | inr (data, err, _) =>
      match data, err with
      | Some s, None => (None, Some (AccessDenied s))
      | _, _ => (None, NetErr <$> err)
      end
  end.

(** One [go linkAccessibilityCheckWorker(ctx, logger, &wg, jobs, ch)]:
    at [for url := range jobs], inside the probe at its send, or
    returned ([defer wg.Done()] ran). *)
Inductive Worker :=
| WRecv
| WSend (url : string)
| WDone.

(** Where [validateLinkAccessibility] stands. *)
Inductive Main :=
| MSpawn (w : nat)
    (* for w := 1; w <= bound; w++ { wg.Add(1); go worker } *)
| MEnqueue (rest : list string)
    (* for _, link := range pageLinks { jobs <- link }; close(jobs) *)
| MCollect (failedLinks : list string)
    (* go func() { wg.Wait(); close(ch) }();
       for link := range ch { append } *)
| MReturned (failedLinks : list string) (err : option Error)
| MPanic.
    (* a send on a closed channel *)

Record State := {
  pc : Main;
  workers : list Worker;
  wg : nat;
  jobs : Chan;
  inaccessibleLinks : Chan;
  started : nat
    (* probes begun so far: the position in pageLinks of the next job *)
}.

(** [if totalLinks < numWorkers] picks the bound of the spawn loop. *)
Definition spawnBound (totalLinks : nat) : nat :=
  if totalLinks <? numWorkers then totalLinks else numWorkers.

(** The function up to its first blocking point.  With no links it has
    returned [nil, nil] before any channel or worker exists; the channels
    of that state are placeholders. *)
Definition validateLinkAccessibility (analysis : LinkAnalysis) : State :=
  let totalLinks := length (pageLinks analysis) in
  if totalLinks =? 0
  then {| pc := MReturned [] None; workers := []; wg := 0;
          jobs := makeChan 0; inaccessibleLinks := makeChan 0;
          started := 0 |}
  else {| pc := MSpawn 1; workers := []; wg := 0;
          jobs := makeChan totalLinks;
          inaccessibleLinks := makeChan totalLinks; started := 0 |}.

Definition mainStep (links : list string) (s : State) : option State :=
  match pc s with
  | MSpawn w =>
      if w <=? spawnBound (length links)
      then Some {| pc := MSpawn (S w); workers := workers s ++ [WRecv];
                   wg := S (wg s); jobs := jobs s;
                   inaccessibleLinks := inaccessibleLinks s;
                   started := started s |}
      else Some {| pc := MEnqueue links; workers := workers s; wg := wg s;
                   jobs := jobs s;
                   inaccessibleLinks := inaccessibleLinks s;
                   started := started s |}
  | MEnqueue (link :: rest) =>
      if hasRoom (jobs s)
      then Some {| pc := MEnqueue rest; workers := workers s; wg := wg s;
                   jobs := push link (jobs s);
                   inaccessibleLinks := inaccessibleLinks s;
                   started := started s |}
      else None
  | MEnqueue [] =>
      Some {| pc := MCollect []; workers := workers s; wg := wg s;
              jobs := close (jobs s);
              inaccessibleLinks := inaccessibleLinks s;
              started := started s |}
  | MCollect failedLinks =>
      match buf (inaccessibleLinks s) with
      | link :: q =>
          Some {| pc := MCollect (failedLinks ++ [link]);
                  workers := workers s; wg := wg s; jobs := jobs s;
                  inaccessibleLinks := setBuf q (inaccessibleLinks s);
                  started := started s |}
      | [] =>
          if closed (inaccessibleLinks s)
          then Some {| pc := MReturned failedLinks None;
                       workers := workers s; wg := wg s; jobs := jobs s;
                       inaccessibleLinks := inaccessibleLinks s;
                       started := started s |}
          else None
      end
  | MReturned _ _ | MPanic => None
  end.

(** After a panic the process is gone. *)
Definition crashed (m : Main) : bool :=
  match m with MPanic => true | _ => false end.

(** The anonymous goroutine [wg.Wait(); close(inaccessibleLinks)]; it
    exists once main is collecting. *)
Definition closerStep (s : State) : option State :=
  match pc s with
  | MCollect _ =>
      if (wg s =? 0) && negb (closed (inaccessibleLinks s))
      then Some {| pc := pc s; workers := workers s; wg := wg s;
                   jobs := jobs s;
                   inaccessibleLinks := close (inaccessibleLinks s);
                   started := started s |}
      else None
  | _ => None
  end.

(** Worker [w] runs to its next blocking point.  A receive takes the
    head of the queue and runs the probe on it; the probe touches nothing
    shared, so it is part of the same step, and its send is the next. *)
Definition linkAccessibilityCheckWorker (env : Env) (w : nat) (s : State)
    : option State :=
  if crashed (pc s) then None else
  match workers s !! w with
  | Some WRecv =>
      match buf (jobs s) with
      | url :: q =>
          let next :=
            match sent (events (probe env (started s) url)) with
            | [] => WRecv
            | u :: _ => WSend u
            end in
          Some {| pc := pc s; workers := <[w := next]> (workers s);
                  wg := wg s; jobs := setBuf q (jobs s);
                  inaccessibleLinks := inaccessibleLinks s;
                  started := S (started s) |}
      | [] =>
          if closed (jobs s)
          then Some {| pc := pc s; workers := <[w := WDone]> (workers s);
                       wg := pred (wg s); jobs := jobs s;
                       inaccessibleLinks := inaccessibleLinks s;
                       started := started s |}
          else None
      end
  | Some (WSend u) =>
      if closed (inaccessibleLinks s)
      then Some {| pc := MPanic; workers := <[w := WDone]> (workers s);
                   wg := wg s; jobs := jobs s;
                   inaccessibleLinks := inaccessibleLinks s;
                   started := started s |}
      else if hasRoom (inaccessibleLinks s)
      then Some {| pc := pc s; workers := <[w := WRecv]> (workers s);
                   wg := wg s; jobs := jobs s;
                   inaccessibleLinks := push u (inaccessibleLinks s);
                   started := started s |}
      else None
  | _ => None
  end.

Definition stepFn (env : Env) (links : list string) (c : Choice) (s : State)
    : option State :=
  match c with
  | RunMain => mainStep links s
  | RunCloser => closerStep s
  | RunWorker w => linkAccessibilityCheckWorker env w s
  end.

Definition step (env : Env) (links : list string) : relation State :=
  λ s s', ∃ c, stepFn env links c s = Some s'.

(** Run a schedule; a choice that cannot move is skipped. *)
Fixpoint exec (env : Env) (links : list string) (sched : list Choice)
    (s : State) : State :=
  match sched with
  | [] => s
  | c :: sched' => exec env links sched' (default s (stepFn env links c s))
  end.

(** [validateLinkAccessibility] returns [(failedLinks, err)] on some
    interleaving of main, the workers and the closer. *)
Definition returns (env : Env) (analysis : LinkAnalysis)
    (failedLinks : list string) (err : option Error) : Prop :=
  ∃ s, rtc (step env (pageLinks analysis)) (validateLinkAccessibility analysis) s
       ∧ pc s = MReturned failedLinks err.

End Pool.

(** The backoff in force after [k] doublings of [b]. *)
Definition backoffAt (b : Z) (k : nat) : Z := Nat.iter k (λ x, wrap64 (x * 2)) b.

(** The time a trace spends in [time.Sleep]. *)
Definition napTime (evs : list Event) : Z :=
  foldr (λ d acc, Z.max 0 d + acc)%Z 0%Z (sleeps evs).

(** An attempt in the trace failed; other events pass. *)
Definition failedAttempt (e : Event) : Prop :=
  match e with
  | EvDo _ _ _ r => succeeded r = false
  | _ => True
  end.

(** An attempt in the trace was cut off by the context the moment it
    started; other events pass. *)
Definition cancelledAtOnce (e : Event) : Prop :=
  match e with
  | EvDo _ st fi r => fi = st ∧ r = DoErr ErrCanceled
  | _ => True
  end.

(** The specification's two cancellation rules, as predicates on a run of
    the probe.  First rule: an attempt that starts under a cancelled
    context is not followed by any sleep. *)
Definition noSleepOnceCancelled (ctx : Context) (run : ProbeRun) : Prop :=
  ∀ pre a st fi r post,
    events run = pre ++ EvDo a st fi r :: post →
    ctxDone ctx st = true →
    sleeps post = [].

(** Second rule: when the context is cancelled during the sleep that
    follows an attempt, no further attempt is made and the probe is over
    before that sleep would have ended. *)
Definition sleepIsCancellable (ctx : Context) (run : ProbeRun) : Prop :=
  ∀ pre a st fi r d post,
    events run = pre ++ EvDo a st fi r :: EvSleep d :: post →
    ctxDone ctx fi = false →
    ctxDone ctx (fi + d)%Z = true →
    attempts post = 0 ∧ (finished run < fi + d)%Z.

(** Sample surroundings for the examples below. *)
Definition anyURL (_ : string) : bool := true.
Definition rejectURL (bad : string) (u : string) : bool := negb (String.eqb u bad).
Definition neverCancelled : Context := {| cancelAt := None |}.
Definition cancelledAt (t : Z) : Context := {| cancelAt := Some t |}.
Definition alwaysStatus (s : Z) (_ : nat) : Reply :=
  {| latency := 0; outcome := DoResp s |}.
Definition refused (_ : nat) : Reply :=
  {| latency := 0; outcome := DoErr ErrRefused |}.
Definition failsOnce (i : nat) : Reply :=
  match i with
  | O => {| latency := 0; outcome := DoResp 503 |}
  | S _ => {| latency := 0; outcome := DoResp 200 |}
  end.

(** What the probes of [links] put into the channel, in link order. *)
Fixpoint sentFrom (env : Env) (j : nat) (links : list string) : list string :=
  match links with
  | [] => []
  | u :: links' => sent (events (probe env j u)) ++ sentFrom env (S j) links'
  end.

(** The remote end answers every request of the probe of link [j] in time,
    with an outcome that satisfies [P]. *)
Definition answers (env : Env) (j : nat) (P : DoResult → Prop) : Prop :=
  ∀ i, P (outcome (envReply env j i))
       ∧ (Z.of_N (latency (envReply env j i)) < clientTimeout)%Z.

(** ** Bookkeeping for the pool of snapshot two *)

Module PoolInv.
Import Pool.

(** Links main has not yet put into [jobs]. *)
Definition pending (links : list string) (m : Main) : list string :=
  match m with
  | MSpawn _ => links
  | MEnqueue rest => rest
  | _ => []
  end.

(** Links main has taken out of [inaccessibleLinks]. *)
Definition collected (m : Main) : list string :=
  match m with
  | MCollect failedLinks | MReturned failedLinks _ => failedLinks
  | _ => []
  end.

(** URLs in the hands of workers that stand at their send. *)
Definition held (w : Worker) : option string :=
  match w with WSend u => Some u | _ => None end.

Definition sending (ws : list Worker) : list string := omap held ws.

(** A worker that has not yet called [wg.Done()]. *)
Definition alive (w : Worker) : nat :=
  match w with WDone => 0 | _ => 1 end.

Definition phaseOk (links : list string) (s : State) : Prop :=
  match pc s with
  | MSpawn w =>
      1 ≤ w ≤ S (spawnBound (length links))
      ∧ length (workers s) = w - 1
      ∧ closed (jobs s) = false
      ∧ closed (inaccessibleLinks s) = false
  | MEnqueue _ =>
      length (workers s) = spawnBound (length links)
      ∧ closed (jobs s) = false
      ∧ closed (inaccessibleLinks s) = false
  | MCollect _ =>
      length (workers s) = spawnBound (length links)
      ∧ closed (jobs s) = true
  | MReturned _ err =>
      length (workers s) = spawnBound (length links)
      ∧ closed (jobs s) = true
      ∧ err = None
      ∧ buf (inaccessibleLinks s) = []
      ∧ closed (inaccessibleLinks s) = true
  | MPanic => False
  end.

(** What holds in every state a run from a non-empty link list reaches. *)
Record Inv (env : Env) (links : list string) (s : State) : Prop := {
  inv_cap_jobs : cap (jobs s) = length links;
  inv_cap_inacc : cap (inaccessibleLinks s) = length links;
  inv_wg : wg s = sum_list_with alive (workers s);
  inv_started : started s ≤ length links;
  inv_jobs : buf (jobs s) ++ pending links (pc s) = drop (started s) links;
  inv_fail :
    failures env (take (started s) links)
      ≡ₚ collected (pc s) ++ buf (inaccessibleLinks s) ++ sending (workers s);
  inv_closed : closed (inaccessibleLinks s) = true → wg s = 0;
  inv_phase : phaseOk links s;
  inv_done : WDone ∈ workers s → buf (jobs s) = [] ∧ closed (jobs s) = true
}.

Definition workerWeight (w : Worker) : nat :=
  match w with WRecv => 1 | WSend _ => 3 | WDone => 0 end.

Definition mainWeight (n : nat) (m : Main) : nat :=
  match m with
  | MSpawn w => 2 * (S (spawnBound n) - w) + 4 * n + 4
  | MEnqueue rest => 4 * length rest + 3
  | MCollect _ => 2
  | MReturned _ _ | MPanic => 0
  end.

(** An upper bound on the steps a state has left. *)
Definition measure (links : list string) (s : State) : nat :=
  mainWeight (length links) (pc s)
  + sum_list_with workerWeight (workers s)
  + 3 * length (buf (jobs s))
  + length (buf (inaccessibleLinks s))
  + (if closed (inaccessibleLinks s) then 0 else 1).
End PoolInv.

(** ** Bookkeeping for the goroutines of snapshot one *)

Module PerLinkInv.
Import PerLink.

(** Links for which main has not yet started a goroutine. *)
Definition pending (m : Main) : list string :=
  match m with
  | MSpawn rest => rest
  | _ => []
  end.

Definition collected (m : Main) : list string :=
  match m with
  | MCollect failedLinks | MReturned failedLinks _ => failedLinks
  | _ => []
  end.

Definition alive (g : Goroutine) : nat :=
  match g with GDone => 0 | _ => 1 end.

(** Goroutine [g], started for the link [u] at position [j], is where the
    probe of that link puts it. *)
Definition goroutineOk (env : Env) (j : nat) (g : Goroutine) (u : string) : Prop :=
  match g with
  | GProbe u' => u' = u
  | GSend u' => u' = u ∧ inaccessible (probe env j u) = true
  | GDone => True
  end.

(** What goroutine [g] has put into the channel so far. *)
Definition delivered (env : Env) (j : nat) (g : Goroutine) (u : string)
    : list string :=
  match g with
  | GDone => if inaccessible (probe env j u) then [u] else []
  | _ => []
  end.

Fixpoint deliveredFrom (env : Env) (j : nat) (gs : list Goroutine)
    (links : list string) : list string :=
  match gs, links with
  | g :: gs', u :: links' =>
      delivered env j g u ++ deliveredFrom env (S j) gs' links'
  | _, _ => []
  end.

Definition phaseOk (s : State) : Prop :=
  match pc s with
  | MSpawn _ | MWait => closed (inaccessibleLinks s) = false
  | MCollect _ => closed (inaccessibleLinks s) = true
  | MReturned _ err =>
      err = None
      ∧ buf (inaccessibleLinks s) = []
      ∧ closed (inaccessibleLinks s) = true
  | MPanic => False
  end.

Record Inv (env : Env) (links : list string) (s : State) : Prop := {
  inv_cap : cap (inaccessibleLinks s) = length links;
  inv_wg : wg s = sum_list_with alive (goroutines s);
  inv_spawned : length (goroutines s) + length (pending (pc s)) = length links;
  inv_pending : pending (pc s) = drop (length (goroutines s)) links;
  inv_goroutines :
    ∀ j g u, goroutines s !! j = Some g → links !! j = Some u →
             goroutineOk env j g u;
  inv_fail :
    deliveredFrom env 0 (goroutines s) links
      ≡ₚ collected (pc s) ++ buf (inaccessibleLinks s);
  inv_closed : closed (inaccessibleLinks s) = true → wg s = 0;
  inv_phase : phaseOk s
}.

Definition goroutineWeight (g : Goroutine) : nat :=
  match g with GProbe _ => 3 | GSend _ => 2 | GDone => 0 end.

Definition mainWeight (m : Main) : nat :=
  match m with
  | MSpawn rest => 4 * length rest + 4
  | MWait => 3
  | MCollect _ => 2
  | MReturned _ _ | MPanic => 0
  end.

Definition measure (s : State) : nat :=
  mainWeight (pc s)
  + sum_list_with goroutineWeight (goroutines s)
  + length (buf (inaccessibleLinks s)).
End PerLinkInv.

(** A page with three links, one that answers 200, one that answers 500
    and one whose host refuses the connection; and a page with eleven. *)
Definition sampleEnv : Env := {|
  envCtx := neverCancelled;
  envRequestOK := anyURL;
  envStart := λ _, 0%Z;
  envReply := λ j,
    match j with
    | 0 => alwaysStatus 200
    | 1 => alwaysStatus 500
    | _ => refused
    end
|}.

Definition sampleLinks : LinkAnalysis := {|
  InternalLinks := ["http://a.test/"; "http://b.test/"];
  ExternalLinks := ["http://c.test/"]
|}.

Definition noLinks : LinkAnalysis := {| InternalLinks := []; ExternalLinks := [] |}.

Definition elevenLinks : LinkAnalysis := {|
  InternalLinks := replicate 6 "http://a.test/in";
  ExternalLinks := replicate 5 "http://a.test/out"
|}.

(** Only main runs, [n] times. *)
Definition mainOnly (n : nat) : list Choice := replicate n RunMain.

(** A schedule of the pool for three links: main spawns and enqueues,
    the workers take one link each, the closer closes, main collects. *)
Definition poolSchedule : list Choice :=
  mainOnly 8
  ++ [RunWorker 2; RunWorker 0; RunWorker 1; RunWorker 0; RunWorker 1;
      RunWorker 2; RunWorker 0; RunWorker 1; RunCloser]
  ++ mainOnly 3.

(** A schedule of the goroutines of snapshot one for three links. *)
Definition perLinkSchedule : list Choice :=
  mainOnly 4
  ++ [RunWorker 2; RunWorker 0; RunWorker 2; RunWorker 1; RunWorker 1]
  ++ mainOnly 4.

(** ** Vocabulary for the loader and the probe as a caller sees them *)

(** Attempt [k] of the loader is the first that succeeds, with status [s]. *)
Definition firstSuccess (get : nat → DoResult) (k : nat) (s : Z) : Prop :=
  get k = DoResp s ∧ is2xx s = true ∧ ∀ j, j < k → succeeded (get j) = false.

(** The error the pool snapshot reports for a failed last attempt: the
    transport error as it is, or "access denied" around the response. *)
Definition lastError (r : DoResult) : Error :=
  match r with
  | DoErr e => NetErr e
  | DoResp s => AccessDenied s
  end.

(** Surroundings whose context is cancelled before any probe starts, on
    servers that would answer 200. *)
Definition cancelledEnv : Env := {|
  envCtx := cancelledAt 0;
  envRequestOK := anyURL;
  envStart := λ _, 0%Z;
  envReply := λ _, alwaysStatus 200
|}.

(** Schedules for three links whose probes all report: every worker takes
    one link and sends it. *)
Definition poolScheduleAllSend : list Choice :=
  mainOnly 8
  ++ [RunWorker 2; RunWorker 0; RunWorker 1; RunWorker 0; RunWorker 1;
      RunWorker 2; RunWorker 0; RunWorker 1; RunWorker 2; RunCloser]
  ++ mainOnly 4.

Definition perLinkScheduleAllSend : list Choice :=
  mainOnly 4
  ++ [RunWorker 2; RunWorker 0; RunWorker 2; RunWorker 1; RunWorker 1;
      RunWorker 0]
  ++ mainOnly 5.


(** Closes a phase obligation: split the phase facts, feed the
    implications at hand, and leave the rest to arithmetic. *)
Ltac phase :=
  destruct_and?; simplify_eq;
  repeat match goal with
         | H : ?P → _, H' : ?P |- _ => specialize (H H')
         end;
  try done; try lia; try congruence;
  try (split_and!; first [done|lia|congruence]).

(** * Facts about the probe *)

Local Open Scope Z_scope.

Lemma wrap64_small z : - 2 ^ 63 ≤ z < 2 ^ 63 → wrap64 z = z.
Proof.
  intros Hz. unfold wrap64.
  rewrite Z.mod_small; lia.
Qed.

Lemma backoffAt_S b k : backoffAt (wrap64 (b * 2)) k = backoffAt b (S k).
Proof. unfold backoffAt. by rewrite Nat.iter_succ_r. Qed.

Lemma backoffAt_pow b k :
  0 ≤ b → b * 2 ^ Z.of_nat k < 2 ^ 63 → backoffAt b k = b * 2 ^ Z.of_nat k.
Proof.
  intros Hb. induction k as [|k IH]; intros Hk.
  - simpl. lia.
  - assert (2 ^ Z.of_nat (S k) = 2 * 2 ^ Z.of_nat k) as Hpow.
    { rewrite Nat2Z.inj_succ, Z.pow_succ_r; lia. }
    assert (0 < 2 ^ Z.of_nat k) by (apply Z.pow_pos_nonneg; lia).
    unfold backoffAt in *. simpl. rewrite IH by nia.
    rewrite wrap64_small; nia.
Qed.

Lemma ctxDone_mono ctx t t' : t ≤ t' → ctxDone ctx t = true → ctxDone ctx t' = true.
Proof.
  unfold ctxDone. destruct (cancelAt ctx) as [c|]; [|done].
  intros Ht Hc. apply Z.leb_le in Hc. apply Z.leb_le. lia.
Qed.

Lemma clientDo_done ctx r t :
  ctxDone ctx t = true → clientDo ctx r t = (DoErr ErrCanceled, t).
Proof. intros H. unfold clientDo. by rewrite H. Qed.

Lemma sleep_ge d t : t ≤ sleep d t.
Proof. unfold sleep. lia. Qed.

Lemma sent_app evs evs' : sent (evs ++ evs') = sent evs ++ sent evs'.
Proof. unfold sent. apply omap_app. Qed.

Lemma attempts_app evs evs' : attempts (evs ++ evs') = (attempts evs + attempts evs')%nat.
Proof. unfold attempts. by rewrite omap_app, length_app. Qed.

Lemma sleeps_app evs evs' : sleeps (evs ++ evs') = sleeps evs ++ sleeps evs'.
Proof. unfold sleeps. apply omap_app. Qed.

Lemma attempts_do a st fi r evs : attempts (EvDo a st fi r :: evs) = S (attempts evs).
Proof. done. Qed.

Lemma attempts_sleep d evs : attempts (EvSleep d :: evs) = attempts evs.
Proof. done. Qed.

Section probe_facts.
Context (newRequestOK : string → bool) (ctx : Context) (url : string).
Context (srv : nat → Reply).

Local Abbreviation loop := (checkerLoop newRequestOK ctx url srv).

Lemma checkerLoop_bad_url n i b t :
  newRequestOK url = false →
  loop (S n) i b t = ([EvRequestError; EvSend url], t).
Proof. intros H. simpl. by rewrite H. Qed.

(** One iteration of the loop, when the request can be built. *)
Lemma checkerLoop_unfold n i b t :
  newRequestOK url = true →
  loop (S n) i b t =
    let rt := clientDo ctx (srv i) t in
    if succeeded rt.1 then ([EvDo (S i) t rt.2 rt.1], rt.2)
    else
      let rest := loop n (S i) (wrap64 (b * 2)) (sleep b rt.2) in
      (EvDo (S i) t rt.2 rt.1 :: EvSleep b :: rest.1, rest.2).
Proof.
  intros H. simpl. rewrite H. simpl.
  destruct (clientDo ctx (srv i) t) as [r t1]. simpl.
  destruct (checkerLoop _ _ _ _ n _ _ _) as [evs te]. simpl.
  destruct r as [e|s]; simpl; [done|]. by destruct (is2xx s).
Qed.

(** Where an attempt stands in the trace of the loop: what came before
    it, what it was, and what follows it. *)
Lemma checkerLoop_split n : ∀ i b t pre a st fi r post,
  (loop n i b t).1 = pre ++ EvDo a st fi r :: post →
  ∃ k : nat,
    a = S (i + k) ∧ (k < n)%nat ∧ newRequestOK url = true
    ∧ clientDo ctx (srv (i + k)%nat) st = (r, fi)
    ∧ attempts pre = k ∧ sent pre = [] ∧ Forall failedAttempt pre
    ∧ if succeeded r
      then post = [] ∧ (loop n i b t).2 = fi
      else
        let rest := loop (n - S k) (S (i + k)) (backoffAt b (S k))
                      (sleep (backoffAt b k) fi) in
        post = EvSleep (backoffAt b k) :: rest.1 ∧ (loop n i b t).2 = rest.2.
Proof.
  induction n as [|n IH]; intros i b t pre a st fi r post Hsplit.
  { simpl in Hsplit. destruct pre as [|? [|]]; simplify_eq/=. }
  destruct (newRequestOK url) eqn:Hok; cycle 1.
  { rewrite checkerLoop_bad_url in Hsplit by done.
    destruct pre as [|? [|? [|]]]; simplify_eq/=. }
  rewrite checkerLoop_unfold in Hsplit |- * by done.
  cbv zeta in *.
  destruct (clientDo ctx (srv i) t) as [r1 t1] eqn:Hdo. simpl in *.
  destruct (succeeded r1) eqn:Hr1; simpl in *.
  - destruct pre as [|? [|]]; simplify_eq/=.
    exists 0%nat. rewrite Nat.add_0_r, Hr1, Hdo.
    repeat split; try done; lia.
  - destruct pre as [|e1 pre]; simplify_eq/=.
    { exists 0%nat. rewrite Nat.add_0_r, Hr1, Hdo, Nat.sub_0_r.
      repeat split; try done; lia. }
    destruct pre as [|e2 pre]; simplify_eq/=.
    apply IH in H0 as (k & -> & Hk & _ & Hdo' & Hatt & Hsent & Hfail & Hpost).
    rewrite !backoffAt_S in Hpost.
    exists (S k). rewrite !Nat.add_succ_r.
    change (S n - S (S k))%nat with (n - S k)%nat.
    change (backoffAt b (S (S k))) with (wrap64 (backoffAt b (S k) * 2)).
    split_and!; [done|lia|done|done| |done| |done].
    + rewrite <- Hatt. done.
    + by repeat constructor.
Qed.

Lemma backoffAt_seq b n :
  backoffAt b <$> seq 1 n = backoffAt (wrap64 (b * 2)) <$> seq 0 n.
Proof.
  rewrite <- fmap_S_seq, <- list_fmap_compose.
  apply list_fmap_ext. intros _ k _. simpl. by rewrite backoffAt_S.
Qed.

(** The run in which every attempt fails: the whole schedule, then the
    send. *)
Lemma checkerLoop_all_failed n : ∀ i b t,
  newRequestOK url = true →
  Forall failedAttempt (loop n i b t).1 →
  attempts (loop n i b t).1 = n
  ∧ sent (loop n i b t).1 = [url]
  ∧ sleeps (loop n i b t).1 = backoffAt b <$> seq 0 n.
Proof.
  induction n as [|n IH]; intros i b t Hok Hall; [done|].
  rewrite checkerLoop_unfold in Hall |- * by done. cbv zeta in *.
  destruct (clientDo ctx (srv i) t) as [r1 t1]. simpl in *.
  destruct (succeeded r1) eqn:Hr1; simpl in *.
  { apply Forall_cons in Hall as [Hr _]. simpl in Hr. congruence. }
  apply Forall_cons in Hall as [_ Hall]. apply Forall_cons in Hall as [_ Hall].
  destruct (IH _ _ _ Hok Hall) as (Hatt & Hsent & Hsl).
  split_and!.
  - unfold attempts in Hatt |- *. simpl. f_equal. exact Hatt.
  - done.
  - change (sleeps (?e1 :: EvSleep b :: ?evs)) with (b :: sleeps evs).
    rewrite Hsl. by rewrite <- backoffAt_seq.
Qed.

(** Under a context that is done the loop does not stop early: every
    attempt fails the moment it starts, and the run lasts exactly as long
    as its sleeps. *)
Lemma checkerLoop_cancelled n : ∀ i b t,
  newRequestOK url = true →
  ctxDone ctx t = true →
  Forall cancelledAtOnce (loop n i b t).1
  ∧ Forall failedAttempt (loop n i b t).1
  ∧ (loop n i b t).2 = t + napTime (loop n i b t).1.
Proof.
  induction n as [|n IH]; intros i b t Hok Hdone.
  { simpl. split_and!; [by repeat constructor..|unfold napTime; simpl; lia]. }
  rewrite checkerLoop_unfold by done. cbv zeta.
  rewrite clientDo_done by done. simpl.
  destruct (IH (S i) (wrap64 (b * 2)) (sleep b t) Hok) as (Hc & Hf & Ht).
  { eapply ctxDone_mono; [apply sleep_ge|done]. }
  split_and!; [by repeat constructor..|].
  rewrite Ht. unfold napTime, sleep. simpl. lia.
Qed.
End probe_facts.

Lemma checkerLoop_attempts_le newRequestOK ctx url srv n : ∀ i b t,
  (attempts (checkerLoop newRequestOK ctx url srv n i b t).1 ≤ n)%nat.
Proof.
  induction n as [|n IH]; intros i b t; [done|].
  destruct (newRequestOK url) eqn:Hok.
  - rewrite checkerLoop_unfold by done. cbv zeta.
    destruct (succeeded _); simpl; [unfold attempts; simpl; lia|].
    specialize (IH (S i) (wrap64 (b * 2)) (sleep b (clientDo ctx (srv i) t).2)).
    rewrite attempts_do, attempts_sleep. lia.
  - rewrite checkerLoop_bad_url by done. unfold attempts. simpl. lia.
Qed.

Lemma linkAccessibilityChecker_loop newRequestOK ctx url srv t0 :
  let run := linkAccessibilityChecker newRequestOK ctx url srv t0 in
  let out := checkerLoop newRequestOK ctx url srv maxRetries 0 initialBackoff t0 in
  events run = out.1 ∧ finished run = out.2.
Proof.
  unfold linkAccessibilityChecker.
  by destruct (checkerLoop _ _ _ _ _ _ _ _).
Qed.

(** The probe puts its own URL into the channel, once, or nothing. *)
Lemma sent_checkerLoop newRequestOK ctx url srv n : ∀ i b t,
  sent (checkerLoop newRequestOK ctx url srv n i b t).1 = []
  ∨ sent (checkerLoop newRequestOK ctx url srv n i b t).1 = [url].
Proof.
  induction n as [|n IH]; intros i b t; [by right|].
  destruct (newRequestOK url) eqn:Hok.
  - rewrite checkerLoop_unfold by done. cbv zeta.
    destruct (succeeded _); simpl; [by left|]. apply IH.
  - rewrite checkerLoop_bad_url by done. by right.
Qed.

Lemma sent_probe env j url :
  sent (events (probe env j url))
    = if inaccessible (probe env j url) then [url] else [].
Proof.
  unfold inaccessible, probe.
  destruct (linkAccessibilityChecker_loop (envRequestOK env) (envCtx env) url
              (envReply env j) (envStart env j)) as [-> _].
  destruct (sent_checkerLoop (envRequestOK env) (envCtx env) url
              (envReply env j) maxRetries 0 initialBackoff (envStart env j))
    as [->| ->]; by rewrite ?bool_decide_eq_false_2, ?bool_decide_eq_true_2 by eauto.
Qed.

(** The backoffs of the three iterations. *)
Lemma backoffAt_initial k :
  (k < maxRetries)%nat →
  backoffAt initialBackoff k = initialBackoff * 2 ^ Z.of_nat k
  ∧ 0 < backoffAt initialBackoff k.
Proof.
  intros Hk. unfold maxRetries in Hk.
  destruct k as [|[|[|k]]]; [by vm_compute..|lia].
Qed.

(** ** The probe's contract *)

(** C7.  When [http.NewRequestWithContext] rejects the URL, the probe ends
    in its first iteration: it puts the URL into the channel once, calls
    [client.Do] not at all, sleeps not at all and takes no time. *)
Theorem malformed_url_fails_at_once newRequestOK ctx url srv t0 :
  newRequestOK url = false →
  events (linkAccessibilityChecker newRequestOK ctx url srv t0)
    = [EvRequestError; EvSend url]
  ∧ sent (events (linkAccessibilityChecker newRequestOK ctx url srv t0)) = [url]
  ∧ attempts (events (linkAccessibilityChecker newRequestOK ctx url srv t0)) = 0%nat
  ∧ sleeps (events (linkAccessibilityChecker newRequestOK ctx url srv t0)) = []
  ∧ finished (linkAccessibilityChecker newRequestOK ctx url srv t0) = t0
  ∧ inaccessible (linkAccessibilityChecker newRequestOK ctx url srv t0) = true.
Proof.
  intros Hbad.
  destruct (linkAccessibilityChecker_loop newRequestOK ctx url srv t0) as [He Hf].
  unfold inaccessible. rewrite He, Hf.
  unfold maxRetries. rewrite checkerLoop_bad_url by done. done.
Qed.

Lemma malformed_url_fails_at_once_witness :
  events (linkAccessibilityChecker (rejectURL "ht tp://invalid-url")
            neverCancelled "ht tp://invalid-url" (alwaysStatus 200) 0)
    = [EvRequestError; EvSend "ht tp://invalid-url"].
Proof.
  apply (malformed_url_fails_at_once (rejectURL "ht tp://invalid-url")
           neverCancelled "ht tp://invalid-url" (alwaysStatus 200) 0).
  reflexivity.
Defined.

(** C2.  A URL whose request can be built and whose every attempt fails
    (a transport error or a status outside 200..299) is tried exactly
    [maxRetries = 3] times and is put into the channel exactly once. *)
Theorem retry_ceiling newRequestOK ctx url srv t0 :
  newRequestOK url = true →
  Forall failedAttempt (events (linkAccessibilityChecker newRequestOK ctx url srv t0)) →
  attempts (events (linkAccessibilityChecker newRequestOK ctx url srv t0)) = maxRetries
  ∧ maxRetries = 3%nat
  ∧ sent (events (linkAccessibilityChecker newRequestOK ctx url srv t0)) = [url].
Proof.
  intros Hok Hall.
  destruct (linkAccessibilityChecker_loop newRequestOK ctx url srv t0) as [He _].
  rewrite He in *.
  destruct (checkerLoop_all_failed newRequestOK ctx url srv maxRetries
              0 initialBackoff t0 Hok Hall) as (Hatt & Hsent & _).
  done.
Qed.

Lemma retry_ceiling_witness :
  attempts (events (linkAccessibilityChecker anyURL neverCancelled
                      "http://b.test/" (alwaysStatus 500) 0)) = 3%nat
  ∧ sent (events (linkAccessibilityChecker anyURL neverCancelled
                    "http://b.test/" (alwaysStatus 500) 0)) = ["http://b.test/"].
Proof.
  destruct (retry_ceiling anyURL neverCancelled "http://b.test/"
              (alwaysStatus 500) 0) as (Hatt & _ & Hsent).
  - reflexivity.
  - vm_compute. repeat constructor.
  - split; [exact Hatt|exact Hsent].
Defined.

(** C6.  An attempt counts as a success exactly when it brought a response
    whose status lies in 200..299.  The probe returns right after its first
    successful attempt: nothing follows it in the trace, nothing is put
    into the channel, every earlier attempt had failed, and the number of
    attempts made is the number of that attempt.  So a URL that fails once
    and then succeeds (attempt number 2) is tried exactly twice. *)
Theorem success_stops_the_probe newRequestOK ctx url srv t0 pre a st fi r post :
  events (linkAccessibilityChecker newRequestOK ctx url srv t0)
    = pre ++ EvDo a st fi r :: post →
  (succeeded r = true ↔ ∃ s, r = DoResp s ∧ 200 ≤ s < 300)
  ∧ (succeeded r = true ↔ post = [])
  ∧ Forall failedAttempt pre
  ∧ (succeeded r = true →
       attempts (events (linkAccessibilityChecker newRequestOK ctx url srv t0)) = a
       ∧ sent (events (linkAccessibilityChecker newRequestOK ctx url srv t0)) = []
       ∧ inaccessible (linkAccessibilityChecker newRequestOK ctx url srv t0) = false
       ∧ finished (linkAccessibilityChecker newRequestOK ctx url srv t0) = fi).
Proof.
  intros Hsplit.
  destruct (linkAccessibilityChecker_loop newRequestOK ctx url srv t0) as [He Hf].
  unfold inaccessible. rewrite Hf. rewrite He in Hsplit |- *.
  pose proof Hsplit as Hsp.
  apply checkerLoop_split in Hsp
    as (k & -> & Hk & Hok & Hdo & Hatt & Hsent & Hfail & Hpost).
  split_and!.
  - destruct r as [e|s]; simpl.
    + split; [done|]. by intros (s & ? & _).
    + unfold is2xx. rewrite andb_true_iff, Z.leb_le, Z.ltb_lt.
      split; [by eauto|]. by intros (s' & [= <-] & ?).
  - destruct (succeeded r).
    + by destruct Hpost as [-> _].
    + destruct Hpost as [-> _]. done.
  - done.
  - intros Hr. rewrite Hr in Hpost. destruct Hpost as [-> Hfin].
    rewrite Hsplit, attempts_app, sent_app, Hatt, Hsent, attempts_do.
    split_and!; [unfold attempts; simpl; lia|done|done|done].
Qed.

Lemma success_stops_the_probe_witness :
  attempts (events (linkAccessibilityChecker anyURL neverCancelled
                      "http://a.test/" failsOnce 0)) = 2%nat
  ∧ sent (events (linkAccessibilityChecker anyURL neverCancelled
                    "http://a.test/" failsOnce 0)) = [].
Proof.
  destruct (success_stops_the_probe anyURL neverCancelled "http://a.test/"
              failsOnce 0 [EvDo 1 0 0 (DoResp 503); EvSleep (1 * Second)]
              2 (1 * Second) (1 * Second) (DoResp 200) [])
    as (_ & _ & _ & Hstop).
  - reflexivity.
  - destruct Hstop as (Hatt & Hsent & _); [reflexivity|].
    split; [exact Hatt|exact Hsent].
Defined.

(** C5.  Attempts are numbered 1 to [maxRetries] and there is never a
    fourth.  After a failed attempt that is not the last, the probe sleeps
    [initialBackoff * 2 ^ i], [i] being the attempt's index counted from 0,
    and the next attempt starts when that sleep is over: one second before
    attempt 2, two seconds before attempt 3. *)
Theorem backoff_schedule newRequestOK ctx url srv t0 pre a st fi r post :
  events (linkAccessibilityChecker newRequestOK ctx url srv t0)
    = pre ++ EvDo a st fi r :: post →
  (1 ≤ a ≤ maxRetries)%nat
  ∧ (attempts (events (linkAccessibilityChecker newRequestOK ctx url srv t0))
       ≤ maxRetries)%nat
  ∧ (succeeded r = false → (a < maxRetries)%nat →
       ∃ fi' r' post',
         post = EvSleep (initialBackoff * 2 ^ (Z.of_nat a - 1))
                  :: EvDo (S a) (fi + initialBackoff * 2 ^ (Z.of_nat a - 1)) fi' r'
                  :: post'
         ∧ (a = 1%nat → initialBackoff * 2 ^ (Z.of_nat a - 1) = 1 * Second)
         ∧ (a = 2%nat → initialBackoff * 2 ^ (Z.of_nat a - 1) = 2 * Second)).
Proof.
  intros Hsplit.
  destruct (linkAccessibilityChecker_loop newRequestOK ctx url srv t0) as [He _].
  rewrite He in Hsplit |- *.
  apply checkerLoop_split in Hsplit
    as (k & -> & Hk & Hok & Hdo & Hatt & Hsent & Hfail & Hpost).
  simpl (0 + k)%nat in *.
  split_and!; [lia|lia|apply checkerLoop_attempts_le|].
  intros Hr Ha. rewrite Hr in Hpost. cbv zeta in Hpost. destruct Hpost as [-> _].
  destruct (backoffAt_initial k Hk) as [Hb Hpos].
  replace (Z.of_nat (S k) - 1) with (Z.of_nat k) by lia.
  replace (maxRetries - S k)%nat with (S (maxRetries - S (S k))) by lia.
  rewrite checkerLoop_unfold by done. cbv zeta.
  rewrite <- Hb. unfold sleep. rewrite Z.max_r by lia.
  clear Hr.
  destruct (succeeded (clientDo _ _ _).1); simpl; eexists _, _, _;
    (split; [reflexivity|]);
    (split; intros [= ->]; by vm_compute).
Qed.

Lemma backoff_schedule_witness :
  ∃ fi' r' post',
    [EvSleep (1 * Second); EvDo 2 (1 * Second) (1 * Second) (DoResp 500);
     EvSleep (2 * Second); EvDo 3 (3 * Second) (3 * Second) (DoResp 500);
     EvSleep (4 * Second); EvSend "http://b.test/"]
    = EvSleep (initialBackoff * 2 ^ (Z.of_nat 1 - 1))
        :: EvDo 2 (0 + initialBackoff * 2 ^ (Z.of_nat 1 - 1)) fi' r' :: post'.
Proof.
  destruct (backoff_schedule anyURL neverCancelled "http://b.test/"
              (alwaysStatus 500) 0 [] 1 0 0 (DoResp 500)
              [EvSleep (1 * Second); EvDo 2 (1 * Second) (1 * Second) (DoResp 500);
               EvSleep (2 * Second); EvDo 3 (3 * Second) (3 * Second) (DoResp 500);
               EvSleep (4 * Second); EvSend "http://b.test/"])
    as (_ & _ & Hnext).
  - reflexivity.
  - destruct Hnext as (fi' & r' & post' & Hpost & _).
    + reflexivity.
    + unfold maxRetries. lia.
    + exists fi', r', post'. exact Hpost.
Defined.

(** The three backoffs of a run in which nothing succeeds. *)
Lemma backoffAt_values :
  backoffAt initialBackoff 0 = 1 * Second
  ∧ backoffAt initialBackoff 1 = 2 * Second
  ∧ backoffAt initialBackoff 2 = 4 * Second.
Proof. by vm_compute. Qed.

(** From a sleep on, under a context that is done when the sleep ends. *)
Lemma checkerLoop_after_cancelled_sleep newRequestOK ctx url srv k fi :
  newRequestOK url = true →
  (k < maxRetries)%nat →
  ctxDone ctx (fi + backoffAt initialBackoff k) = true →
  let rest := checkerLoop newRequestOK ctx url srv (maxRetries - S k) (S k)
                (backoffAt initialBackoff (S k))
                (sleep (backoffAt initialBackoff k) fi) in
  Forall cancelledAtOnce rest.1
  ∧ attempts rest.1 = (maxRetries - S k)%nat
  ∧ sent rest.1 = [url]
  ∧ rest.2 = fi + initialBackoff * (2 ^ 3 - 2 ^ Z.of_nat k).
Proof.
  intros Hok Hk Hdone rest.
  destruct (backoffAt_initial k Hk) as [Hb Hpos].
  assert (sleep (backoffAt initialBackoff k) fi = fi + backoffAt initialBackoff k)
    as Hsleep by (unfold sleep; lia).
  destruct (checkerLoop_cancelled newRequestOK ctx url srv (maxRetries - S k)
              (S k) (backoffAt initialBackoff (S k))
              (sleep (backoffAt initialBackoff k) fi) Hok) as (Hc & Hf & Ht).
  { by rewrite Hsleep. }
  destruct (checkerLoop_all_failed newRequestOK ctx url srv _ _ _ _ Hok Hf)
    as (Hatt & Hsent & Hsl).
  split_and!; [done..|].
  subst rest. rewrite Ht. unfold napTime. rewrite Hsl, Hsleep.
  destruct backoffAt_values as (H0 & H1 & H2).
  unfold maxRetries in *.
  destruct k as [|[|[|k]]]; [| | |lia]; vm_compute foldr; rewrite ?H0, ?H1, ?H2;
    unfold initialBackoff, Second; lia.
Qed.

(** C4, as the specification states it, fails.  A probe started under a
    context that is already cancelled sleeps 1s, 2s and 4s and returns
    after seven seconds; and when the context is cancelled half a second
    into the first backoff, the sleep still lasts its full second, both
    remaining attempts are made, and the probe again returns at seven
    seconds. *)
Lemma cancelled_probe_still_sleeps :
  ctxDone (cancelledAt 0) 0 = true
  ∧ events (linkAccessibilityChecker anyURL (cancelledAt 0)
              "http://a.test/" (alwaysStatus 200) 0)
      = [EvDo 1 0 0 (DoErr ErrCanceled); EvSleep (1 * Second);
         EvDo 2 (1 * Second) (1 * Second) (DoErr ErrCanceled);
         EvSleep (2 * Second);
         EvDo 3 (3 * Second) (3 * Second) (DoErr ErrCanceled);
         EvSleep (4 * Second); EvSend "http://a.test/"]
  ∧ finished (linkAccessibilityChecker anyURL (cancelledAt 0)
                "http://a.test/" (alwaysStatus 200) 0) = 7 * Second
  ∧ ¬ noSleepOnceCancelled (cancelledAt 0)
        (linkAccessibilityChecker anyURL (cancelledAt 0)
           "http://a.test/" (alwaysStatus 200) 0)
  ∧ events (linkAccessibilityChecker anyURL (cancelledAt (Second / 2))
              "http://b.test/" (alwaysStatus 500) 0)
      = [EvDo 1 0 0 (DoResp 500); EvSleep (1 * Second);
         EvDo 2 (1 * Second) (1 * Second) (DoErr ErrCanceled);
         EvSleep (2 * Second);
         EvDo 3 (3 * Second) (3 * Second) (DoErr ErrCanceled);
         EvSleep (4 * Second); EvSend "http://b.test/"]
  ∧ finished (linkAccessibilityChecker anyURL (cancelledAt (Second / 2))
                "http://b.test/" (alwaysStatus 500) 0) = 7 * Second
  ∧ ¬ sleepIsCancellable (cancelledAt (Second / 2))
        (linkAccessibilityChecker anyURL (cancelledAt (Second / 2))
           "http://b.test/" (alwaysStatus 500) 0).
Proof.
  split_and!; try reflexivity.
  - intros Hno.
    specialize (Hno [] 1%nat 0 0 (DoErr ErrCanceled) _ eq_refl eq_refl).
    discriminate Hno.
  - intros Hcut.
    destruct (Hcut [] 1%nat 0 0 (DoResp 500) (1 * Second) _ eq_refl eq_refl eq_refl)
      as [Hatt _].
    discriminate Hatt.
Qed.

(** C4, as the code has it.  An attempt that starts under a cancelled
    context fails the moment it starts, with a cancellation error; but
    [time.Sleep] takes no context, so the full backoff follows it all the
    same.  And whenever the context is done by the end of the sleep that
    follows an attempt (cancelled before the attempt, during it, or during
    the sleep), that sleep lasts its full [initialBackoff * 2 ^ i], every
    remaining attempt is still made and fails at once, each followed by its
    own full backoff; the probe makes [maxRetries] attempts in all and only
    then reports the URL, [initialBackoff * (2 ^ 3 - 2 ^ i)] after the
    attempt with index [i] ended. *)
Theorem cancellation_does_not_stop_the_probe
    newRequestOK ctx url srv t0 pre a st fi r post :
  events (linkAccessibilityChecker newRequestOK ctx url srv t0)
    = pre ++ EvDo a st fi r :: post →
  (ctxDone ctx st = true →
     r = DoErr ErrCanceled ∧ fi = st
     ∧ ∃ post', post = EvSleep (initialBackoff * 2 ^ (Z.of_nat a - 1)) :: post')
  ∧ (∀ d post',
       post = EvSleep d :: post' →
       ctxDone ctx (fi + d) = true →
       d = initialBackoff * 2 ^ (Z.of_nat a - 1)
       ∧ Forall cancelledAtOnce post'
       ∧ attempts (events (linkAccessibilityChecker newRequestOK ctx url srv t0))
           = maxRetries
       ∧ sent (events (linkAccessibilityChecker newRequestOK ctx url srv t0)) = [url]
       ∧ finished (linkAccessibilityChecker newRequestOK ctx url srv t0)
           = fi + initialBackoff * (2 ^ 3 - 2 ^ (Z.of_nat a - 1))).
Proof.
  intros Hsplit.
  destruct (linkAccessibilityChecker_loop newRequestOK ctx url srv t0) as [He Hf].
  rewrite Hf. rewrite He in Hsplit |- *.
  pose proof Hsplit as Hsp.
  apply checkerLoop_split in Hsp
    as (k & -> & Hk & Hok & Hdo & Hatt & Hsent & Hfail & Hpost).
  simpl (0 + k)%nat in *.
  replace (Z.of_nat (S k) - 1) with (Z.of_nat k) by lia.
  destruct (backoffAt_initial k Hk) as [Hb Hpos].
  split.
  - intros Hdone. rewrite clientDo_done in Hdo by done.
    injection Hdo as <- <-. simpl in Hpost. destruct Hpost as [-> _].
    rewrite Hb. eauto.
  - intros d post' -> Hdone.
    destruct (succeeded r); [by destruct Hpost|].
    cbv zeta in Hpost. destruct Hpost as [[= -> ->] Hfin].
    destruct (checkerLoop_after_cancelled_sleep newRequestOK ctx url srv k fi
                Hok Hk Hdone) as (Hc & Hatt' & Hsent' & Hend).
    rewrite Hfin. split_and!; [done|done| | |done].
    + rewrite Hsplit, attempts_app, attempts_do, attempts_sleep.
      transitivity (attempts pre + S (maxRetries - S k))%nat; [|lia].
      do 2 f_equal. exact Hatt'.
    + rewrite Hsplit, sent_app, Hsent. simpl. exact Hsent'.
Qed.

Lemma cancellation_does_not_stop_the_probe_witness :
  finished (linkAccessibilityChecker anyURL (cancelledAt (Second / 2))
              "http://b.test/" (alwaysStatus 500) 0)
    = 0 + initialBackoff * (2 ^ 3 - 2 ^ (Z.of_nat 1 - 1)).
Proof.
  destruct (cancellation_does_not_stop_the_probe anyURL (cancelledAt (Second / 2))
              "http://b.test/" (alwaysStatus 500) 0 [] 1 0 0 (DoResp 500)
              [EvSleep (1 * Second);
               EvDo 2 (1 * Second) (1 * Second) (DoErr ErrCanceled);
               EvSleep (2 * Second);
               EvDo 3 (3 * Second) (3 * Second) (DoErr ErrCanceled);
               EvSleep (4 * Second); EvSend "http://b.test/"])
    as [_ Hsleep].
  - reflexivity.
  - destruct (Hsleep (1 * Second) _ eq_refl) as (_ & _ & _ & _ & Hfin).
    + reflexivity.
    + exact Hfin.
Defined.

Local Close Scope Z_scope.

(** * Facts about lists of goroutines *)

Lemma sum_list_with_insert {A} (f : A → nat) (l : list A) i x y :
  l !! i = Some y →
  sum_list_with f (<[i := x]> l) + f y = sum_list_with f l + f x.
Proof.
  revert i. induction l as [|z l IH]; intros [|i] Hi; simplify_eq/=; [lia|].
  specialize (IH i Hi). lia.
Qed.

Lemma sum_list_with_pos {A} (f : A → nat) (l : list A) :
  0 < sum_list_with f l → ∃ i x, l !! i = Some x ∧ 0 < f x.
Proof.
  induction l as [|z l IH]; simpl; [lia|]. intros Hpos.
  destruct (decide (0 < f z)) as [Hz|Hz].
  - by exists 0, z.
  - destruct IH as (i & x & Hi & Hx); [lia|]. by exists (S i), x.
Qed.

Lemma sum_list_with_zero {A} (f : A → nat) (l : list A) i x :
  sum_list_with f l = 0 → l !! i = Some x → f x = 0.
Proof.
  revert i. induction l as [|z l IH]; intros [|i] Hsum Hi; simplify_eq/=; [lia|].
  apply (IH i); [lia|done].
Qed.

Lemma omap_insert_perm {A B} (f : A → option B) (l : list A) i x y :
  l !! i = Some y →
  omap f (<[i := x]> l) ++ option_list (f y) ≡ₚ omap f l ++ option_list (f x).
Proof.
  revert i. induction l as [|z l IH]; intros [|i] Hi; simplify_eq/=.
  - destruct (f x), (f y); simpl;
      rewrite ?app_nil_r, <- ?Permutation_cons_append; try done.
    apply perm_swap.
  - specialize (IH i Hi). destruct (f z); simpl; [|done]. by f_equiv.
Qed.

Lemma elem_of_insert_inv {A} (l : list A) i x y :
  y ∈ <[i := x]> l → y = x ∨ y ∈ l.
Proof.
  revert i. induction l as [|z l IH]; intros [|i]; simpl; try by auto.
  - intros [->|?]%elem_of_cons; [by left|right; by right].
  - intros [->|Hin]%elem_of_cons; [right; by left|].
    destruct (IH _ Hin); [by left|right; by right].
Qed.

Lemma drop_cons_lookup {A} (l : list A) k x q :
  drop k l = x :: q → l !! k = Some x ∧ drop (S k) l = q.
Proof.
  revert k. induction l as [|z l IH]; intros [|k] Hd; simplify_eq/=; [done|].
  by apply IH.
Qed.

(** * Facts about the verdicts of a link list *)

Lemma failuresFrom_app env j l1 l2 :
  failuresFrom env j (l1 ++ l2)
    = failuresFrom env j l1 ++ failuresFrom env (j + length l1) l2.
Proof.
  revert j. induction l1 as [|u l1 IH]; intros j; simpl.
  - by rewrite Nat.add_0_r.
  - rewrite IH, <- app_assoc. do 3 f_equal. lia.
Qed.

Lemma failures_take_S env links k u :
  links !! k = Some u →
  failures env (take (S k) links)
    = failures env (take k links) ++ sent (events (probe env k u)).
Proof.
  intros Hk. unfold failures.
  rewrite (take_S_r _ _ _ Hk), failuresFrom_app. simpl.
  rewrite length_take_le by (apply lookup_lt_Some in Hk; lia).
  by rewrite app_nil_r, sent_probe.
Qed.

Lemma sentFrom_failuresFrom env j links :
  sentFrom env j links = failuresFrom env j links.
Proof.
  revert j. induction links as [|u links IH]; intros j; simpl; [done|].
  by rewrite IH, sent_probe.
Qed.

Lemma sent_probe_length env j url : length (sent (events (probe env j url))) ≤ 1.
Proof. rewrite sent_probe. destruct (inaccessible _); simpl; lia. Qed.

Lemma length_failuresFrom env j links :
  length (failuresFrom env j links) ≤ length links.
Proof.
  revert j. induction links as [|u links IH]; intros j; simpl; [lia|].
  rewrite length_app. specialize (IH (S j)).
  destruct (inaccessible _); simpl; lia.
Qed.

(** * Snapshot two: the pool keeps its books *)

Module PoolFacts.
Import Pool PoolInv.

Lemma spawnBound_min n : spawnBound n = n `min` numWorkers.
Proof. unfold spawnBound. case_match; [apply Nat.ltb_lt in H|apply Nat.ltb_ge in H]; lia. Qed.

Lemma sending_app ws ws' : sending (ws ++ ws') = sending ws ++ sending ws'.
Proof. unfold sending. apply omap_app. Qed.

Section run.
Context (env : Env) (links : list string).

Lemma inv_init analysis :
  pageLinks analysis = links → links ≠ [] →
  Inv env links (validateLinkAccessibility analysis).
Proof.
  intros Hl Hne. unfold validateLinkAccessibility. rewrite Hl.
  destruct links as [|u l]; [done|]. simpl.
  constructor; simpl; try done; try lia.
  - unfold phaseOk. simpl. split_and!; try done; lia.
  - by intros ?%elem_of_nil.
Qed.

Lemma inv_mainStep s s' :
  Inv env links s → mainStep links s = Some s' → Inv env links s'.
Proof.
  intros [Hcj Hci Hwg Hst Hjobs Hfail Hcl Hph Hdn] Hstep.
  unfold mainStep in Hstep. unfold phaseOk in Hph.
  destruct s as [m ws g jb ch k]. simpl in *.
  destruct m as [w|[|u rest]|fl|fl err|]; simpl in *.
  - (* the spawn loop *)
    destruct Hph as (Hw & Hlen & Hc1 & Hc2).
    destruct (w <=? spawnBound (length links)) eqn:Hle; simplify_eq/=.
    + apply Nat.leb_le in Hle.
      constructor; simpl; try done.
      * rewrite sum_list_with_app. simpl. lia.
      * by rewrite sending_app, app_nil_r.
      * intros ?. congruence.
      * unfold phaseOk. simpl. rewrite length_app. simpl.
        split_and!; try done; lia.
      * intros [Hin|Hin%list_elem_of_singleton]%elem_of_app; [auto|done].
    + apply Nat.leb_gt in Hle.
      constructor; simpl; try done.
      unfold phaseOk. simpl. split_and!; try done; lia.
  - (* close(jobs) *)
    simplify_eq/=. destruct Hph as (Hlen & Hc1 & Hc2).
    constructor; simpl; try done.
    intros Hin. by destruct (Hdn Hin).
  - (* jobs <- link *)
    destruct Hph as (Hlen & Hc1 & Hc2).
    destruct (hasRoom jb) eqn:Hroom; simplify_eq/=.
    constructor; simpl; try done.
    + by rewrite <- app_assoc.
    + intros Hin. destruct (Hdn Hin). congruence.
  - (* the collecting loop *)
    destruct Hph as (Hlen & Hc1).
    destruct (buf ch) as [|u q] eqn:Hbuf.
    + destruct (closed ch) eqn:Hc; simplify_eq/=.
      constructor; simpl; rewrite ?Hbuf; try done; auto.
    + simplify_eq/=.
      constructor; simpl; try done.
      by rewrite <- app_assoc.
  - done.
  - done.
Qed.

Lemma inv_closerStep s s' :
  Inv env links s → closerStep s = Some s' → Inv env links s'.
Proof.
  intros [Hcj Hci Hwg Hst Hjobs Hfail Hcl Hph Hdn] Hstep.
  unfold closerStep in Hstep. unfold phaseOk in Hph.
  destruct s as [m ws g jb ch k]. simpl in *.
  destruct m as [w|rest|fl|fl err|]; try done.
  destruct (g =? 0) eqn:Hg; [|done]. apply Nat.eqb_eq in Hg.
  destruct (closed ch) eqn:Hc; simplify_eq/=.
  constructor; simpl; try done.
Qed.

Lemma sending_insert (ws : list Worker) w x y :
  ws !! w = Some y →
  sending (<[w := x]> ws) ++ option_list (held y)
    ≡ₚ sending ws ++ option_list (held x).
Proof. apply omap_insert_perm. Qed.

Lemma alive_worker_counts (ws : list Worker) w x :
  ws !! w = Some x → alive x ≤ sum_list_with alive ws.
Proof.
  intros Hw. pose proof (sum_list_with_insert alive ws w WDone x Hw).
  simpl in *. lia.
Qed.

Lemma inv_workerStep w s s' :
  Inv env links s → linkAccessibilityCheckWorker env w s = Some s' →
  Inv env links s'.
Proof.
  intros [Hcj Hci Hwg Hst Hjobs Hfail Hcl Hph Hdn] Hstep.
  unfold linkAccessibilityCheckWorker in Hstep. unfold phaseOk in Hph.
  destruct s as [m ws g jb ch k]. simpl in *.
  destruct (crashed m) eqn:Hcr; [done|].
  destruct (ws !! w) as [[|u|]|] eqn:Hw; [| |done|done].
  - (* at the receive *)
    pose proof (alive_worker_counts ws w _ Hw) as Hlive. simpl in Hlive.
    destruct (buf jb) as [|url q] eqn:Hbuf.
    + (* the queue is closed and drained: the worker returns *)
      destruct (closed jb) eqn:Hcjb; simplify_eq/=.
      pose proof (sum_list_with_insert alive ws w WDone _ Hw) as Hsum.
      pose proof (sending_insert ws w WDone _ Hw) as Hsend.
      simpl in Hsum. cbn [held option_list] in Hsend.
      rewrite !app_nil_r in Hsend.
      constructor; simpl; rewrite ?Hbuf; try done.
      * lia.
      * by rewrite Hsend.
      * intros Hc. specialize (Hcl Hc). lia.
      * unfold phaseOk. simpl. rewrite length_insert.
        destruct m; try done; phase.
    + (* a job: the probe runs *)
      simplify_eq/=.
      symmetry in Hjobs. apply drop_cons_lookup in Hjobs as [Hk Hdrop].
      pose proof (lookup_lt_Some _ _ _ Hk) as Hlt.
      set (next := match sent (events (probe env k url)) with
                   | [] => WRecv | u :: _ => WSend u end).
      assert (alive next = 1) as Hnext.
      { subst next. by destruct (sent _). }
      pose proof (sum_list_with_insert alive ws w next _ Hw) as Hsum.
      pose proof (sending_insert ws w next _ Hw) as Hsend.
      simpl in Hsum. cbn [held option_list] in Hsend.
      rewrite app_nil_r in Hsend.
      constructor; simpl; try done.
      * lia.
      * rewrite (failures_take_S _ _ _ _ Hk), Hfail.
        rewrite Hsend, !app_assoc. f_equiv.
        subst next. rewrite sent_probe. by destruct (inaccessible _).
      * unfold phaseOk. simpl. rewrite length_insert.
        apply (f_equal length) in Hdrop.
        rewrite length_app, length_drop in Hdrop.
        destruct m; try done; simpl in Hdrop; phase.
      * intros Hin. apply elem_of_insert_inv in Hin as [Hin|Hin].
        -- subst next. by destruct (sent _).
        -- by destruct (Hdn Hin).
  - (* at the send *)
    pose proof (alive_worker_counts ws w _ Hw) as Hlive. simpl in Hlive.
    destruct (closed ch) eqn:Hc.
    { specialize (Hcl eq_refl). lia. }
    destruct (hasRoom ch) eqn:Hroom; simplify_eq/=.
    pose proof (sum_list_with_insert alive ws w WRecv _ Hw) as Hsum.
    pose proof (sending_insert ws w WRecv _ Hw) as Hsend.
    simpl in Hsum. cbn [held option_list] in Hsend.
    rewrite app_nil_r in Hsend.
    constructor; simpl; try done.
    * lia.
    * rewrite Hfail, <- Hsend, <- !app_assoc. do 2 f_equiv.
      apply Permutation_app_comm.
    * by rewrite Hc.
    * unfold phaseOk. simpl. rewrite length_insert.
      destruct m; try done; phase.
    * intros Hin. apply elem_of_insert_inv in Hin as [Hin|Hin]; [done|auto].
Qed.

Lemma inv_step s s' : Inv env links s → step env links s s' → Inv env links s'.
Proof.
  intros Hinv [[| |w] Hstep]; simpl in Hstep;
    eauto using inv_mainStep, inv_closerStep, inv_workerStep.
Qed.

Lemma inv_rtc s s' :
  Inv env links s → rtc (step env links) s s' → Inv env links s'.
Proof. induction 2; eauto using inv_step. Qed.

(** Every step uses up some of the measure. *)
Lemma measure_step s s' :
  step env links s s' → measure links s' < measure links s.
Proof.
  intros [[| |w] Hstep]; simpl in Hstep; destruct s as [m ws g jb ch k].
  - unfold mainStep in Hstep. simpl in Hstep.
    destruct m as [w|[|u rest]|fl|fl err|]; simpl in *; try done.
    + destruct (w <=? spawnBound (length links)) eqn:Hle; simplify_eq/=;
        [apply Nat.leb_le in Hle|apply Nat.leb_gt in Hle];
        unfold measure; simpl; rewrite ?sum_list_with_app; simpl; lia.
    + simplify_eq/=. unfold measure. simpl. lia.
    + destruct (hasRoom jb); simplify_eq/=.
      unfold measure. simpl. rewrite length_app. simpl. lia.
    + destruct (buf ch) as [|u q] eqn:Hbuf.
      * destruct (closed ch) eqn:Hc; simplify_eq/=.
        unfold measure. simpl. rewrite Hbuf, Hc. simpl. lia.
      * simplify_eq/=. unfold measure. simpl. rewrite Hbuf. simpl. lia.
  - unfold closerStep in Hstep. simpl in Hstep.
    destruct m; try done.
    destruct (g =? 0); [|done].
    destruct (closed ch) eqn:Hc; simplify_eq/=.
    unfold measure. simpl. rewrite Hc. lia.
  - unfold linkAccessibilityCheckWorker in Hstep. simpl in Hstep.
    destruct (crashed m) eqn:Hcr; [done|].
    destruct (ws !! w) as [[|u|]|] eqn:Hw; [| |done|done].
    + destruct (buf jb) as [|url q] eqn:Hbuf.
      * destruct (closed jb); simplify_eq/=.
        pose proof (sum_list_with_insert workerWeight ws w WDone _ Hw) as Hsum.
        unfold measure. simpl in *. rewrite Hbuf. lia.
      * simplify_eq/=.
        set (next := match sent (events (probe env k url)) with
                     | [] => WRecv | u :: _ => WSend u end).
        assert (workerWeight next ≤ 3) by (subst next; destruct (sent _); simpl; lia).
        pose proof (sum_list_with_insert workerWeight ws w next _ Hw) as Hsum.
        unfold measure. simpl in *. rewrite Hbuf. simpl. lia.
    + destruct (closed ch) eqn:Hc; simplify_eq/=.
      * pose proof (sum_list_with_insert workerWeight ws w WDone _ Hw) as Hsum.
        unfold measure. simpl in *. rewrite Hc. destruct m; simpl in *; try done; lia.
      * destruct (hasRoom ch); simplify_eq/=.
        pose proof (sum_list_with_insert workerWeight ws w WRecv _ Hw) as Hsum.
        unfold measure. simpl in *. rewrite Hc, length_app. simpl. lia.
Qed.

(** When the wait group is at zero no worker holds anything back. *)
Lemma all_workers_done (ws : list Worker) :
  sum_list_with alive ws = 0 → sending ws = [] ∧ (ws ≠ [] → WDone ∈ ws).
Proof.
  intros Hsum. split.
  - induction ws as [|[|u|] ws IH]; simpl in *; try done; try lia. by apply IH.
  - destruct ws as [|x ws]; [done|]. intros _.
    pose proof (sum_list_with_zero alive (x :: ws) 0 x Hsum eq_refl).
    destruct x; simpl in *; try done. by left.
Qed.

(** What main hands back is, up to order, the list of failures. *)
Lemma returned_result s failedLinks err :
  links ≠ [] → Inv env links s → pc s = MReturned failedLinks err →
  err = None ∧ failedLinks ≡ₚ failures env links.
Proof.
  intros Hne [Hcj Hci Hwg Hst Hjobs Hfail Hcl Hph Hdn] Hpc.
  unfold phaseOk in Hph. rewrite Hpc in *. simpl in *.
  destruct Hph as (Hlen & Hcjb & -> & Hbuf & Hc).
  split; [done|].
  specialize (Hcl Hc). rewrite Hcl in Hwg. symmetry in Hwg.
  destruct (all_workers_done _ Hwg) as [Hsend Hdone].
  destruct Hdn as [Hjb _].
  { apply Hdone. intros Hnil. rewrite Hnil in Hlen. simpl in Hlen.
    rewrite spawnBound_min in Hlen.
    destruct links; [done|]. simpl in Hlen. unfold numWorkers in Hlen. lia. }
  rewrite Hjb in Hjobs. simpl in Hjobs.
  assert (started s = length links) as Hall.
  { symmetry in Hjobs. apply (f_equal length) in Hjobs.
    rewrite length_drop in Hjobs. simpl in Hjobs. lia. }
  rewrite Hall, firstn_all, Hbuf, Hsend, !app_nil_r in Hfail. done.
Qed.

(** Nothing is ever stuck short of the return. *)
Lemma progress s :
  links ≠ [] → Inv env links s →
  (∀ failedLinks err, pc s ≠ MReturned failedLinks err) →
  ∃ s', step env links s s'.
Proof.
  intros Hne [Hcj Hci Hwg Hst Hjobs Hfail Hcl Hph Hdn] Hrun.
  unfold phaseOk in Hph. unfold step.
  destruct s as [m ws g jb ch k]. simpl in *.
  destruct m as [w|[|u rest]|fl|fl err|]; simpl in *.
  - exists (default (Build_State MPanic [] 0 jb ch 0)
              (mainStep links (Build_State (MSpawn w) ws g jb ch k))), RunMain.
    simpl. unfold mainStep. simpl. by destruct (_ <=? _).
  - eexists _, RunMain. simpl. unfold mainStep. simpl. done.
  - eexists _, RunMain. simpl. unfold mainStep. simpl.
    assert (hasRoom jb = true) as ->; [|done].
    unfold hasRoom. apply Nat.ltb_lt.
    apply (f_equal length) in Hjobs.
    rewrite length_app, length_drop in Hjobs. simpl in Hjobs. lia.
  - destruct (buf ch) as [|u q] eqn:Hbuf.
    + destruct (closed ch) eqn:Hc.
      { eexists _, RunMain. simpl. unfold mainStep. simpl. by rewrite Hbuf, Hc. }
      destruct g as [|g'] eqn:Hg.
      { eexists _, RunCloser. simpl. unfold closerStep. simpl. by rewrite Hc. }
      destruct (sum_list_with_pos alive ws) as (w & x & Hw & Hx); [lia|].
      destruct Hph as (Hlen & Hcjb).
      destruct x as [|u|]; simpl in Hx; [| |lia].
      * destruct (buf jb) as [|url q] eqn:Hjb.
        -- eexists _, (RunWorker w). simpl.
           unfold linkAccessibilityCheckWorker. simpl. by rewrite Hw, Hjb, Hcjb.
        -- eexists _, (RunWorker w). simpl.
           unfold linkAccessibilityCheckWorker. simpl. by rewrite Hw, Hjb.
      * eexists _, (RunWorker w). simpl.
        unfold linkAccessibilityCheckWorker. simpl. rewrite Hw, Hc.
        assert (hasRoom ch = true) as ->; [|done].
        unfold hasRoom. apply Nat.ltb_lt. rewrite Hbuf, Hci.
        destruct links; [done|]. simpl. lia.
    + eexists _, RunMain. simpl. unfold mainStep. simpl. by rewrite Hbuf.
  - by destruct (Hrun fl err).
  - done.
Qed.

(** From every state of a run main gets to its return, whoever is
    scheduled. *)
Lemma reaches_return s :
  links ≠ [] → Inv env links s →
  ∃ s' failedLinks err,
    rtc (step env links) s s' ∧ pc s' = MReturned failedLinks err.
Proof.
  intros Hne. remember (measure links s) as n eqn:Hn. revert s Hn.
  induction (lt_wf n) as [n _ IH]. intros s -> Hinv.
  destruct (pc s) as [w|rest|fl|fl err|] eqn:Hpc;
    try (destruct (progress s Hne Hinv) as [s1 Hs1]; [intros ??; congruence|];
         destruct (IH _ (measure_step _ _ Hs1) s1 eq_refl)
           as (s' & fl' & err' & Hrtc & Hret);
         [by eapply inv_step|];
         exists s', fl', err'; split; [by eapply rtc_l|done]).
  exists s, fl, err. split; [apply rtc_refl|done].
Qed.

(** No schedule runs for ever. *)
Lemma pool_terminates s : sn (step env links) s.
Proof.
  remember (measure links s) as n eqn:Hn. revert s Hn.
  induction (lt_wf n) as [n _ IH]. intros s ->.
  constructor. intros s' Hstep. unfold flip in Hstep.
  by apply (IH _ (measure_step _ _ Hstep)).
Qed.

(** A run that can go no further has returned. *)
Lemma stuck_is_returned s :
  links ≠ [] → Inv env links s → nf (step env links) s →
  ∃ failedLinks, pc s = MReturned failedLinks None.
Proof.
  intros Hne Hinv Hnf.
  destruct (pc s) as [w|rest|fl|fl err|] eqn:Hpc;
    try (destruct Hnf; apply progress; [done..|intros ??; congruence]).
  destruct (returned_result s fl err Hne Hinv Hpc) as [-> _]. by exists fl.
Qed.

(** The pool never outgrows its bound, and is at its bound once the spawn
    loop is left. *)
Lemma workers_bound s :
  Inv env links s →
  length (workers s) ≤ spawnBound (length links)
  ∧ ((∀ w, pc s ≠ MSpawn w) → length (workers s) = spawnBound (length links)).
Proof.
  intros [_ _ _ _ _ _ _ Hph _]. unfold phaseOk in Hph.
  destruct (pc s) as [w|rest|fl|fl err|] eqn:Hpc; try done;
    destruct_and?; split; try lia; try done.
  intros Hno. by destruct (Hno w).
Qed.

(** A worker that stands at its send finds the channel open and with
    room: the send neither blocks nor panics. *)
Lemma send_never_blocks s w u :
  Inv env links s → workers s !! w = Some (WSend u) →
  closed (inaccessibleLinks s) = false ∧ hasRoom (inaccessibleLinks s) = true.
Proof.
  intros [Hcj Hci Hwg Hst Hjobs Hfail Hcl Hph Hdn] Hw.
  pose proof (alive_worker_counts _ _ _ Hw) as Hlive. simpl in Hlive.
  split.
  - destruct (closed _); [|done]. specialize (Hcl eq_refl). lia.
  - unfold hasRoom. apply Nat.ltb_lt. rewrite Hci.
    apply Permutation_length in Hfail. rewrite !length_app in Hfail.
    pose proof (length_failuresFrom env 0 (take (started s) links)) as Hle.
    rewrite length_take in Hle. unfold failures in Hfail.
    assert (0 < length (sending (workers s))); [|lia].
    assert (u ∈ sending (workers s)) as Hin.
    { apply list_elem_of_omap. exists (WSend u).
      split; [by eapply list_elem_of_lookup_2|done]. }
    destruct (sending (workers s)); [by apply elem_of_nil in Hin|simpl; lia].
Qed.

(** The channel is closed only once every worker has returned. *)
Lemma closed_after_join s :
  Inv env links s → closed (inaccessibleLinks s) = true →
  wg s = 0 ∧ Forall (λ w, w = WDone) (workers s).
Proof.
  intros [Hcj Hci Hwg Hst Hjobs Hfail Hcl Hph Hdn] Hc.
  specialize (Hcl Hc). split; [done|].
  rewrite Hcl in Hwg. symmetry in Hwg.
  apply Forall_lookup. intros i x Hi.
  pose proof (sum_list_with_zero alive _ i x Hwg Hi). by destruct x.
Qed.
End run.

(** With no links the function has returned before anything is spawned,
    and nothing can move. *)
Lemma pool_empty env analysis :
  pageLinks analysis = [] →
  validateLinkAccessibility analysis
    = {| pc := MReturned [] None; workers := []; wg := 0;
         jobs := makeChan 0; inaccessibleLinks := makeChan 0; started := 0 |}
  ∧ nf (step env (pageLinks analysis)) (validateLinkAccessibility analysis).
Proof.
  intros Hl. unfold validateLinkAccessibility. rewrite Hl. simpl.
  split; [done|]. by intros [s' [[| |w] Hstep]].
Qed.

(** The states a run of [validateLinkAccessibility] passes through. *)
Lemma pool_reachable env analysis s :
  rtc (step env (pageLinks analysis)) (validateLinkAccessibility analysis) s →
  (pageLinks analysis = [] ∧ s = validateLinkAccessibility analysis)
  ∨ (pageLinks analysis ≠ [] ∧ Inv env (pageLinks analysis) s).
Proof.
  intros Hrtc. destruct (decide (pageLinks analysis = [])) as [Hl|Hl].
  - left. split; [done|].
    destruct (pool_empty env analysis Hl) as [_ Hnf].
    destruct Hrtc as [|s1 s2 s3 Hstep _]; [done|]. destruct Hnf. by exists s2.
  - right. split; [done|].
    eapply inv_rtc; [|done]. by apply inv_init.
Qed.
End PoolFacts.

(** * Snapshot one: the goroutines keep their books *)

Module PerLinkFacts.
Import PerLink PerLinkInv.

Lemma deliveredFrom_snoc env gs g : ∀ j links,
  deliveredFrom env j (gs ++ [g]) links
    = deliveredFrom env j gs links
      ++ match links !! length gs with
         | Some u => delivered env (j + length gs) g u
         | None => []
         end.
Proof.
  induction gs as [|g0 gs IH]; intros j [|u links]; simpl; try done.
  - by rewrite Nat.add_0_r, app_nil_r.
  - rewrite IH, <- app_assoc. do 2 f_equal.
    destruct (links !! length gs); [|done]. f_equal. lia.
Qed.

Lemma deliveredFrom_insert env gs i g g' u : ∀ j links,
  gs !! i = Some g → links !! i = Some u →
  deliveredFrom env j (<[i := g']> gs) links ++ delivered env (j + i) g u
    ≡ₚ deliveredFrom env j gs links ++ delivered env (j + i) g' u.
Proof.
  revert i. induction gs as [|g0 gs IH]; intros [|i] j [|u0 links] Hg Hu;
    simplify_eq/=.
  - rewrite Nat.add_0_r.
    rewrite (Permutation_app_comm (delivered env j g' u)), <- app_assoc.
    rewrite (Permutation_app_comm (delivered env j g u)), <- app_assoc.
    f_equiv. apply Permutation_app_comm.
  - specialize (IH i (S j) links Hg Hu).
    replace (j + S i) with (S j + i) by lia.
    by rewrite <- !app_assoc, IH.
Qed.

Lemma deliveredFrom_all_done env gs : ∀ j links,
  sum_list_with alive gs = 0 → length gs = length links →
  deliveredFrom env j gs links = failuresFrom env j links.
Proof.
  induction gs as [|g gs IH]; intros j [|u links] Hsum Hlen;
    simplify_eq/=; [done|].
  destruct g; simpl in *; try lia. f_equal. by apply IH.
Qed.

(** A goroutine that has not returned has delivered nothing. *)
Lemma length_deliveredFrom env gs : ∀ j links,
  length (deliveredFrom env j gs links) + sum_list_with alive gs ≤ length gs.
Proof.
  induction gs as [|g gs IH]; intros j [|u links]; simpl; try lia.
  - pose proof (IH j []) as H0. destruct gs; simpl in *; destruct g; simpl; lia.
  - rewrite length_app. specialize (IH (S j) links).
    destruct g; simpl; try lia. destruct (inaccessible _); simpl; lia.
Qed.

Lemma alive_goroutine_counts (gs : list Goroutine) j g :
  gs !! j = Some g → alive g ≤ sum_list_with alive gs.
Proof.
  intros Hg. pose proof (sum_list_with_insert alive gs j GDone g Hg).
  simpl in *. lia.
Qed.

Section run.
Context (env : Env) (links : list string).

Lemma perlink_inv_init analysis :
  pageLinks analysis = links → links ≠ [] →
  Inv env links (validateLinkAccessibility analysis).
Proof.
  intros Hl Hne. unfold validateLinkAccessibility. rewrite Hl.
  destruct links as [|u l]; [done|]. simpl.
  constructor; simpl; try done.
Qed.

Lemma perlink_inv_mainStep s s' :
  Inv env links s → mainStep s = Some s' → Inv env links s'.
Proof.
  intros [Hcap Hwg Hsp Hpend Hgs Hfail Hcl Hph] Hstep.
  unfold mainStep in Hstep. unfold phaseOk in Hph.
  destruct s as [m gs g ch]. simpl in *.
  destruct m as [[|u rest]| |fl|fl err|]; simpl in *; try done.
  - (* the spawn loop is over *)
    simplify_eq/=. constructor; simpl; try done.
  - (* go linkAccessibilityChecker(link) *)
    simplify_eq/=. symmetry in Hpend. apply drop_cons_lookup in Hpend as [Hu Hdrop].
    constructor; simpl; try done.
    + rewrite sum_list_with_app. simpl. lia.
    + rewrite length_app. simpl. lia.
    + rewrite length_app. simpl. by rewrite Nat.add_1_r.
    + intros j g0 u0 Hj Hu0.
      apply lookup_app_Some in Hj as [Hj|[Hge Hj]]; [by eapply Hgs|].
      destruct (j - length gs) as [|[|]] eqn:Hd; simplify_eq/=.
      assert (j = length gs) as -> by lia. congruence.
    + rewrite deliveredFrom_snoc, Hu. simpl. by rewrite app_nil_r.
    + intros ?. congruence.
  - (* wg.Wait() is over: close *)
    destruct (g =? 0) eqn:Hg; simplify_eq/=. apply Nat.eqb_eq in Hg.
    constructor; simpl; try done.
  - (* the collecting loop *)
    destruct (buf ch) as [|u q] eqn:Hbuf.
    + destruct (closed ch) eqn:Hc; simplify_eq/=.
      constructor; simpl; rewrite ?Hbuf; try done; auto.
    + simplify_eq/=.
      constructor; simpl; try done.
      by rewrite <- app_assoc.
Qed.

Lemma perlink_inv_goroutineStep j s s' :
  Inv env links s → goroutineStep env j s = Some s' → Inv env links s'.
Proof.
  intros [Hcap Hwg Hsp Hpend Hgs Hfail Hcl Hph] Hstep.
  unfold goroutineStep in Hstep. unfold phaseOk in Hph.
  destruct s as [m gs g ch]. simpl in *.
  destruct (crashed m) eqn:Hcr; [done|].
  destruct (gs !! j) as [g0|] eqn:Hj; [|done].
  pose proof (alive_goroutine_counts gs j _ Hj) as Hlive.
  destruct (links !! j) as [u|] eqn:Hu; cycle 1.
  { apply lookup_lt_Some in Hj. apply lookup_ge_None in Hu. lia. }
  pose proof (Hgs j g0 u Hj Hu) as Hok.
  assert (∀ g1, (∀ j' g' u', <[j := g1]> gs !! j' = Some g' →
                   links !! j' = Some u' → j' ≠ j → goroutineOk env j' g' u'))
    as Hothers.
  { intros g1 j' g' u' Hj' Hu' Hne.
    rewrite list_lookup_insert_ne in Hj' by done. by eapply Hgs. }
  destruct g0 as [url|url|]; simpl in Hok, Hlive; [| |done].
  - (* the probe *)
    subst url. rewrite sent_probe in Hstep.
    destruct (inaccessible (probe env j u)) eqn:Hv; simplify_eq/=.
    + pose proof (sum_list_with_insert alive gs j (GSend u) _ Hj) as Hsum.
      pose proof (deliveredFrom_insert env gs j _ (GSend u) u 0 links Hj Hu) as Hd.
      simpl in Hsum, Hd. rewrite !app_nil_r in Hd.
      constructor; simpl; rewrite ?length_insert; try done.
      * lia.
      * intros j' g' u' Hj' Hu'. destruct (decide (j' = j)) as [->|Hne].
        -- rewrite list_lookup_insert_eq in Hj' by (by eapply lookup_lt_Some).
           by simplify_eq/=.
        -- by eapply Hothers.
      * by rewrite Hd.
    + pose proof (sum_list_with_insert alive gs j GDone _ Hj) as Hsum.
      pose proof (deliveredFrom_insert env gs j _ GDone u 0 links Hj Hu) as Hd.
      simpl in Hsum, Hd. rewrite Hv, !app_nil_r in Hd.
      constructor; simpl; rewrite ?length_insert; try done.
      * lia.
      * intros j' g' u' Hj' Hu'. destruct (decide (j' = j)) as [->|Hne].
        -- rewrite list_lookup_insert_eq in Hj' by (by eapply lookup_lt_Some).
           by simplify_eq/=.
        -- by eapply Hothers.
      * by rewrite Hd.
      * intros Hc. specialize (Hcl Hc). lia.
  - (* the send *)
    destruct Hok as [-> Hv].
    destruct (closed ch) eqn:Hc.
    { specialize (Hcl eq_refl). lia. }
    destruct (hasRoom ch) eqn:Hroom; simplify_eq/=.
    pose proof (sum_list_with_insert alive gs j GDone _ Hj) as Hsum.
    pose proof (deliveredFrom_insert env gs j _ GDone u 0 links Hj Hu) as Hd.
    simpl in Hsum, Hd. rewrite Hv, !app_nil_r in Hd.
    constructor; simpl; rewrite ?length_insert; try done.
    + lia.
    + intros j' g' u' Hj' Hu'. destruct (decide (j' = j)) as [->|Hne].
      * rewrite list_lookup_insert_eq in Hj' by (by eapply lookup_lt_Some).
        by simplify_eq/=.
      * by eapply Hothers.
    + by rewrite Hd, Hfail, !app_assoc.
    + by rewrite Hc.
    + unfold phaseOk. simpl. destruct m; try done; phase.
Qed.

Lemma perlink_inv_step s s' : Inv env links s → step env s s' → Inv env links s'.
Proof.
  intros Hinv [[| |w] Hstep]; simpl in Hstep;
    eauto using perlink_inv_mainStep, perlink_inv_goroutineStep.
  done.
Qed.

Lemma perlink_inv_rtc s s' :
  Inv env links s → rtc (step env) s s' → Inv env links s'.
Proof. induction 2; eauto using perlink_inv_step. Qed.

(** Every step uses up some of the measure. *)
Lemma perlink_measure_step s s' : step env s s' → measure s' < measure s.
Proof.
  intros [[| |j] Hstep]; simpl in Hstep; [|done|]; destruct s as [m gs g ch].
  - unfold mainStep in Hstep. simpl in Hstep.
    destruct m as [[|u rest]| |fl|fl err|]; simpl in *; try done.
    + simplify_eq/=. unfold measure. simpl. lia.
    + simplify_eq/=. unfold measure. simpl.
      rewrite sum_list_with_app. simpl. lia.
    + destruct (g =? 0); simplify_eq/=. unfold measure. simpl. lia.
    + destruct (buf ch) as [|u q] eqn:Hbuf.
      * destruct (closed ch); simplify_eq/=.
        unfold measure. simpl. rewrite Hbuf. simpl. lia.
      * simplify_eq/=. unfold measure. simpl. rewrite Hbuf. simpl. lia.
  - unfold goroutineStep in Hstep. simpl in Hstep.
    destruct (crashed m) eqn:Hcr; [done|].
    destruct (gs !! j) as [[url|url|]|] eqn:Hj; [| |done|done].
    + destruct (sent (events (probe env j url))) as [|u l]; simplify_eq/=.
      * pose proof (sum_list_with_insert goroutineWeight gs j GDone _ Hj) as Hsum.
        unfold measure. simpl in *. lia.
      * pose proof (sum_list_with_insert goroutineWeight gs j (GSend u) _ Hj) as Hsum.
        unfold measure. simpl in *. lia.
    + pose proof (sum_list_with_insert goroutineWeight gs j GDone _ Hj) as Hsum.
      destruct (closed ch); simplify_eq/=.
      * unfold measure. simpl in *. destruct m; simpl in *; try done; lia.
      * destruct (hasRoom ch); simplify_eq/=.
        unfold measure. simpl in *. rewrite length_app. simpl. lia.
Qed.

(** What main hands back is, up to order, the list of failures. *)
Lemma perlink_returned_result s failedLinks err :
  Inv env links s → pc s = MReturned failedLinks err →
  err = None ∧ failedLinks ≡ₚ failures env links.
Proof.
  intros [Hcap Hwg Hsp Hpend Hgs Hfail Hcl Hph] Hpc.
  unfold phaseOk in Hph. rewrite Hpc in *. simpl in *.
  destruct Hph as (-> & Hbuf & Hc). split; [done|].
  specialize (Hcl Hc). rewrite Hcl in Hwg. symmetry in Hwg.
  rewrite deliveredFrom_all_done, Hbuf, app_nil_r in Hfail by (done || lia).
  done.
Qed.

(** Nothing is ever stuck short of the return. *)
Lemma perlink_progress s :
  links ≠ [] → Inv env links s →
  (∀ failedLinks err, pc s ≠ MReturned failedLinks err) →
  ∃ s', step env s s'.
Proof.
  intros Hne [Hcap Hwg Hsp Hpend Hgs Hfail Hcl Hph] Hrun.
  unfold phaseOk in Hph. unfold step.
  destruct s as [m gs g ch]. simpl in *.
  destruct m as [[|u rest]| |fl|fl err|]; simpl in *.
  - eexists _, RunMain. simpl. unfold mainStep. simpl. done.
  - eexists _, RunMain. simpl. unfold mainStep. simpl. done.
  - destruct g as [|g'] eqn:Hg.
    { eexists _, RunMain. simpl. unfold mainStep. simpl. done. }
    destruct (sum_list_with_pos alive gs) as (j & x & Hj & Hx); [lia|].
    destruct x as [url|url|]; simpl in Hx; [| |lia].
    + destruct (sent (events (probe env j url))) as [|u l] eqn:Hs.
      * eexists _, (RunWorker j). simpl.
        unfold goroutineStep. simpl. by rewrite Hj, Hs.
      * eexists _, (RunWorker j). simpl.
        unfold goroutineStep. simpl. by rewrite Hj, Hs.
    + eexists _, (RunWorker j). simpl.
      unfold goroutineStep. simpl. rewrite Hj, Hph.
      assert (hasRoom ch = true) as ->; [|done].
      unfold hasRoom. apply Nat.ltb_lt. rewrite Hcap.
      apply Permutation_length in Hfail. simpl in Hfail.
      pose proof (length_deliveredFrom env gs 0 links). lia.
  - destruct (buf ch) as [|u q] eqn:Hbuf.
    + eexists _, RunMain. simpl. unfold mainStep. simpl. by rewrite Hbuf, Hph.
    + eexists _, RunMain. simpl. unfold mainStep. simpl. by rewrite Hbuf.
  - by destruct (Hrun fl err).
  - done.
Qed.

(** From every state of a run main gets to its return, whoever is
    scheduled. *)
Lemma perlink_reaches_return s :
  links ≠ [] → Inv env links s →
  ∃ s' failedLinks err, rtc (step env) s s' ∧ pc s' = MReturned failedLinks err.
Proof.
  intros Hne. remember (measure s) as n eqn:Hn. revert s Hn.
  induction (lt_wf n) as [n _ IH]. intros s -> Hinv.
  destruct (pc s) as [rest| |fl|fl err|] eqn:Hpc;
    try (destruct (perlink_progress s Hne Hinv) as [s1 Hs1];
         [intros ??; congruence|];
         destruct (IH _ (perlink_measure_step _ _ Hs1) s1 eq_refl)
           as (s' & fl' & err' & Hrtc & Hret);
         [by eapply perlink_inv_step|];
         exists s', fl', err'; split; [by eapply rtc_l|done]).
  exists s, fl, err. split; [apply rtc_refl|done].
Qed.

(** No schedule runs for ever. *)
Lemma perlink_terminates s : sn (step env) s.
Proof.
  remember (measure s) as n eqn:Hn. revert s Hn.
  induction (lt_wf n) as [n _ IH]. intros s ->.
  constructor. intros s' Hstep. unfold flip in Hstep.
  by apply (IH _ (perlink_measure_step _ _ Hstep)).
Qed.

(** A goroutine that stands at its send finds the channel open and with
    room: the send neither blocks nor panics. *)
Lemma perlink_send_never_blocks s j u :
  Inv env links s → goroutines s !! j = Some (GSend u) →
  closed (inaccessibleLinks s) = false ∧ hasRoom (inaccessibleLinks s) = true.
Proof.
  intros [Hcap Hwg Hsp Hpend Hgs Hfail Hcl Hph] Hj.
  pose proof (alive_goroutine_counts _ _ _ Hj) as Hlive. simpl in Hlive.
  split.
  - destruct (closed _); [|done]. specialize (Hcl eq_refl). lia.
  - unfold hasRoom. apply Nat.ltb_lt. rewrite Hcap.
    apply Permutation_length in Hfail. rewrite length_app in Hfail.
    pose proof (length_deliveredFrom env (goroutines s) 0 links). lia.
Qed.

(** The channel is closed only once every goroutine has returned. *)
Lemma perlink_closed_after_join s :
  Inv env links s → closed (inaccessibleLinks s) = true →
  wg s = 0 ∧ Forall (λ g, g = GDone) (goroutines s).
Proof.
  intros [Hcap Hwg Hsp Hpend Hgs Hfail Hcl Hph] Hc.
  specialize (Hcl Hc). split; [done|].
  rewrite Hcl in Hwg. symmetry in Hwg.
  apply Forall_lookup. intros i x Hi.
  pose proof (sum_list_with_zero alive _ i x Hwg Hi). by destruct x.
Qed.

(** One goroutine per link, however many links there are. *)
Lemma perlink_goroutines_count s :
  Inv env links s → (∀ rest, pc s ≠ MSpawn rest) →
  length (goroutines s) = length links.
Proof.
  intros [Hcap Hwg Hsp Hpend Hgs Hfail Hcl Hph] Hno.
  destruct (pc s) as [rest| |fl|fl err|] eqn:Hpc; simpl in *; try lia.
  by destruct (Hno rest).
Qed.
End run.

(** With no links the function has returned before anything is spawned,
    and nothing can move. *)
Lemma perlink_empty env analysis :
  pageLinks analysis = [] →
  validateLinkAccessibility analysis
    = {| pc := MReturned [] None; goroutines := []; wg := 0;
         inaccessibleLinks := makeChan 0 |}
  ∧ nf (step env) (validateLinkAccessibility analysis).
Proof.
  intros Hl. unfold validateLinkAccessibility. rewrite Hl. simpl.
  split; [done|]. by intros [s' [[| |w] Hstep]].
Qed.

(** The states a run of [validateLinkAccessibility] passes through. *)
Lemma perlink_reachable env analysis s :
  rtc (step env) (validateLinkAccessibility analysis) s →
  (pageLinks analysis = [] ∧ s = validateLinkAccessibility analysis)
  ∨ (pageLinks analysis ≠ [] ∧ Inv env (pageLinks analysis) s).
Proof.
  intros Hrtc. destruct (decide (pageLinks analysis = [])) as [Hl|Hl].
  - left. split; [done|].
    destruct (perlink_empty env analysis Hl) as [_ Hnf].
    destruct Hrtc as [|s1 s2 s3 Hstep _]; [done|]. destruct Hnf. by exists s2.
  - right. split; [done|].
    eapply perlink_inv_rtc; [|done]. by apply perlink_inv_init.
Qed.
End PerLinkFacts.

(** * Schedules are runs *)

Lemma pool_exec_rtc env links sched : ∀ s,
  rtc (Pool.step env links) s (Pool.exec env links sched s).
Proof.
  induction sched as [|c sched IH]; intros s; simpl; [done|].
  destruct (Pool.stepFn env links c s) as [s1|] eqn:Hstep; simpl; [|done].
  eapply rtc_l; [by exists c|done].
Qed.

Lemma perlink_exec_rtc env sched : ∀ s,
  rtc (PerLink.step env) s (PerLink.exec env sched s).
Proof.
  induction sched as [|c sched IH]; intros s; simpl; [done|].
  destruct (PerLink.stepFn env c s) as [s1|] eqn:Hstep; simpl; [|done].
  eapply rtc_l; [by exists c|done].
Qed.

Lemma pool_sample_run :
  Pool.returns sampleEnv sampleLinks ["http://b.test/"; "http://c.test/"] None.
Proof.
  exists (Pool.exec sampleEnv (pageLinks sampleLinks) poolSchedule
            (Pool.validateLinkAccessibility sampleLinks)).
  split; [apply pool_exec_rtc|by vm_compute].
Qed.

Lemma perlink_sample_run :
  PerLink.returns sampleEnv sampleLinks ["http://c.test/"; "http://b.test/"] None.
Proof.
  exists (PerLink.exec sampleEnv perLinkSchedule
            (PerLink.validateLinkAccessibility sampleLinks)).
  split; [apply perlink_exec_rtc|by vm_compute].
Qed.

(** * Verdicts of steady servers *)

Lemma clientDo_failed ctx r t :
  succeeded (outcome r) = false → succeeded (clientDo ctx r t).1 = false.
Proof.
  intros Hr. unfold clientDo.
  repeat case_match; simpl; done.
Qed.

Lemma checkerLoop_server_fails newRequestOK ctx url srv n : ∀ i b t,
  newRequestOK url = true →
  (∀ i, succeeded (outcome (srv i)) = false) →
  Forall failedAttempt (checkerLoop newRequestOK ctx url srv n i b t).1.
Proof.
  induction n as [|n IH]; intros i b t Hok Hsrv; [by repeat constructor|].
  rewrite checkerLoop_unfold by done. cbv zeta.
  rewrite clientDo_failed by done. simpl.
  constructor; [by apply clientDo_failed|]. constructor; [done|]. by apply IH.
Qed.

(** A link whose every reply is a failure ends [Inaccessible]. *)
Lemma probe_fails env j url :
  envRequestOK env url = true →
  (∀ i, succeeded (outcome (envReply env j i)) = false) →
  inaccessible (probe env j url) = true.
Proof.
  intros Hok Hsrv. unfold inaccessible, probe.
  destruct (linkAccessibilityChecker_loop (envRequestOK env) (envCtx env) url
              (envReply env j) (envStart env j)) as [-> _].
  destruct (checkerLoop_all_failed (envRequestOK env) (envCtx env) url
              (envReply env j) maxRetries 0 initialBackoff (envStart env j) Hok)
    as (_ & -> & _); [by apply checkerLoop_server_fails|done].
Qed.

(** A link that answers 2xx in time, under a context that is never
    cancelled, ends [Accessible]. *)
Lemma probe_succeeds env j url :
  envRequestOK env url = true →
  cancelAt (envCtx env) = None →
  answers env j (λ r, succeeded r = true) →
  inaccessible (probe env j url) = false.
Proof.
  intros Hok Hctx Hsrv. unfold inaccessible, probe.
  destruct (linkAccessibilityChecker_loop (envRequestOK env) (envCtx env) url
              (envReply env j) (envStart env j)) as [-> _].
  unfold maxRetries. rewrite checkerLoop_unfold by done. cbv zeta.
  destruct (Hsrv 0) as [Hr Hlat].
  unfold clientDo, ctxDone. rewrite Hctx.
  destruct (Z.leb_spec (envStart env j + clientTimeout)
              (envStart env j + Z.of_N (latency (envReply env j 0)))); [lia|].
  simpl. by rewrite Hr.
Qed.

(** * The validator's contract *)

(** C1.  On every interleaving, both validators return a nil error and,
    up to order, exactly the URLs whose probe ended [Inaccessible], each as
    often as it occurs in the link list.  They do return: no schedule runs
    for ever, and from every state a run reaches the return is still
    reachable.  For three links of which the first always answers 200, the
    second always answers 500 and the third refuses the connection, the
    list returned is the second and the third. *)
Theorem validate_reports_the_failures env analysis :
  (∀ s,
     rtc (Pool.step env (pageLinks analysis))
       (Pool.validateLinkAccessibility analysis) s →
     sn (Pool.step env (pageLinks analysis)) s
     ∧ ∃ s' failedLinks,
         rtc (Pool.step env (pageLinks analysis)) s s'
         ∧ Pool.pc s' = Pool.MReturned failedLinks None)
  ∧ (∀ failedLinks err, Pool.returns env analysis failedLinks err →
       err = None ∧ failedLinks ≡ₚ failures env (pageLinks analysis))
  ∧ (∀ s,
       rtc (PerLink.step env) (PerLink.validateLinkAccessibility analysis) s →
       sn (PerLink.step env) s
       ∧ ∃ s' failedLinks,
           rtc (PerLink.step env) s s'
           ∧ PerLink.pc s' = PerLink.MReturned failedLinks None)
  ∧ (∀ failedLinks err, PerLink.returns env analysis failedLinks err →
       err = None ∧ failedLinks ≡ₚ failures env (pageLinks analysis))
  ∧ (∀ A B C,
       pageLinks analysis = [A; B; C] →
       cancelAt (envCtx env) = None →
       envRequestOK env A = true → envRequestOK env B = true →
       envRequestOK env C = true →
       answers env 0 (λ r, r = DoResp 200) →
       answers env 1 (λ r, r = DoResp 500) →
       answers env 2 (λ r, r = DoErr ErrRefused) →
       failures env (pageLinks analysis) = [B; C]).
Proof.
  split_and!.
  - intros s Hrtc. split; [apply PoolFacts.pool_terminates|].
    destruct (PoolFacts.pool_reachable env analysis s Hrtc) as [[Hl ->]|[Hl Hinv]].
    + exists (Pool.validateLinkAccessibility analysis), []. split; [done|].
      by destruct (PoolFacts.pool_empty env analysis Hl) as [-> _].
    + destruct (PoolFacts.reaches_return env (pageLinks analysis) s Hl Hinv)
        as (s' & fl & err & Hrtc' & Hpc).
      destruct (PoolFacts.returned_result env (pageLinks analysis) s' fl err)
        as [-> _]; [done| |done|].
      { by eapply PoolFacts.inv_rtc. }
      by exists s', fl.
  - intros fl err (s & Hrtc & Hpc).
    destruct (PoolFacts.pool_reachable env analysis s Hrtc) as [[Hl ->]|[Hl Hinv]].
    + destruct (PoolFacts.pool_empty env analysis Hl) as [Hinit _].
      rewrite Hinit in Hpc. simpl in Hpc. simplify_eq. by rewrite Hl.
    + by eapply PoolFacts.returned_result.
  - intros s Hrtc. split; [apply PerLinkFacts.perlink_terminates|].
    destruct (PerLinkFacts.perlink_reachable env analysis s Hrtc)
      as [[Hl ->]|[Hl Hinv]].
    + exists (PerLink.validateLinkAccessibility analysis), []. split; [done|].
      by destruct (PerLinkFacts.perlink_empty env analysis Hl) as [-> _].
    + destruct (PerLinkFacts.perlink_reaches_return env (pageLinks analysis)
                  s Hl Hinv) as (s' & fl & err & Hrtc' & Hpc).
      destruct (PerLinkFacts.perlink_returned_result env (pageLinks analysis)
                  s' fl err) as [-> _]; [|done|].
      { by eapply PerLinkFacts.perlink_inv_rtc. }
      by exists s', fl.
  - intros fl err (s & Hrtc & Hpc).
    destruct (PerLinkFacts.perlink_reachable env analysis s Hrtc)
      as [[Hl ->]|[Hl Hinv]].
    + destruct (PerLinkFacts.perlink_empty env analysis Hl) as [Hinit _].
      rewrite Hinit in Hpc. simpl in Hpc. simplify_eq. by rewrite Hl.
    + by eapply PerLinkFacts.perlink_returned_result.
  - intros A B C -> Hctx HA HB HC H200 H500 Href.
    unfold failures. simpl.
    rewrite probe_succeeds, !probe_fails; try done.
    + intros i. by destruct (Href i) as [-> _].
    + intros i. by destruct (H500 i) as [-> _].
    + intros i. by destruct (H200 i) as [-> ?].
Qed.

Lemma validate_reports_the_failures_witness :
  ["http://b.test/"; "http://c.test/"] ≡ₚ failures sampleEnv (pageLinks sampleLinks)
  ∧ ["http://c.test/"; "http://b.test/"] ≡ₚ failures sampleEnv (pageLinks sampleLinks)
  ∧ failures sampleEnv (pageLinks sampleLinks) = ["http://b.test/"; "http://c.test/"].
Proof.
  destruct (validate_reports_the_failures sampleEnv sampleLinks)
    as (_ & Hpool & _ & Hperlink & Hthree).
  split_and!.
  - exact (proj2 (Hpool _ _ pool_sample_run)).
  - exact (proj2 (Hperlink _ _ perlink_sample_run)).
  - apply (Hthree "http://a.test/" "http://b.test/" "http://c.test/");
      try reflexivity; intros i; split; reflexivity.
Defined.

(** C8.  With no links at all, both validators have returned an empty
    list and a nil error before a channel is made or a goroutine started:
    no worker exists, the wait group stands at zero, nothing can be
    scheduled, and that is the only result. *)
Theorem empty_link_set_returns_at_once env analysis :
  pageLinks analysis = [] →
  (Pool.pc (Pool.validateLinkAccessibility analysis) = Pool.MReturned [] None
   ∧ Pool.workers (Pool.validateLinkAccessibility analysis) = []
   ∧ Pool.wg (Pool.validateLinkAccessibility analysis) = 0
   ∧ nf (Pool.step env (pageLinks analysis)) (Pool.validateLinkAccessibility analysis)
   ∧ ∀ failedLinks err, Pool.returns env analysis failedLinks err →
       failedLinks = [] ∧ err = None)
  ∧ (PerLink.pc (PerLink.validateLinkAccessibility analysis)
       = PerLink.MReturned [] None
     ∧ PerLink.goroutines (PerLink.validateLinkAccessibility analysis) = []
     ∧ PerLink.wg (PerLink.validateLinkAccessibility analysis) = 0
     ∧ nf (PerLink.step env) (PerLink.validateLinkAccessibility analysis)
     ∧ ∀ failedLinks err, PerLink.returns env analysis failedLinks err →
         failedLinks = [] ∧ err = None).
Proof.
  intros Hl. split.
  - destruct (PoolFacts.pool_empty env analysis Hl) as [Hinit Hnf].
    split_and!; try (by rewrite Hinit); [done|].
    intros fl err (s & Hrtc & Hpc).
    destruct (PoolFacts.pool_reachable env analysis s Hrtc) as [[_ ->]|[Hne _]];
      [|done].
    rewrite Hinit in Hpc. simpl in Hpc. by simplify_eq.
  - destruct (PerLinkFacts.perlink_empty env analysis Hl) as [Hinit Hnf].
    split_and!; try (by rewrite Hinit); [done|].
    intros fl err (s & Hrtc & Hpc).
    destruct (PerLinkFacts.perlink_reachable env analysis s Hrtc)
      as [[_ ->]|[Hne _]]; [|done].
    rewrite Hinit in Hpc. simpl in Hpc. by simplify_eq.
Qed.

Lemma empty_link_set_returns_at_once_witness :
  Pool.pc (Pool.validateLinkAccessibility noLinks) = Pool.MReturned [] None
  ∧ PerLink.pc (PerLink.validateLinkAccessibility noLinks)
      = PerLink.MReturned [] None.
Proof.
  destruct (empty_link_set_returns_at_once sampleEnv noLinks) as [Hpool Hperlink].
  - reflexivity.
  - split; [exact (proj1 Hpool)|exact (proj1 Hperlink)].
Defined.

(** C9.  In every state either validator reaches: the failure channel has
    room for as many URLs as there are links; a worker that stands at its
    send finds the channel open and not full, so no send blocks or panics;
    the channel is closed only once the wait group is at zero and every
    worker has returned; what the probes have delivered so far is, up to
    order, what main has collected plus what is in the channel (plus what
    pool workers hold at their send); and what main finally returns is, up
    to order, exactly what the probes sent.  A probe sends at most one
    URL. *)
Theorem failure_channel_loses_nothing env analysis :
  (∀ s,
     rtc (Pool.step env (pageLinks analysis))
       (Pool.validateLinkAccessibility analysis) s →
     cap (Pool.inaccessibleLinks s) = length (pageLinks analysis)
     ∧ Pool.pc s ≠ Pool.MPanic
     ∧ (∀ w u, Pool.workers s !! w = Some (Pool.WSend u) →
          closed (Pool.inaccessibleLinks s) = false
          ∧ hasRoom (Pool.inaccessibleLinks s) = true)
     ∧ (closed (Pool.inaccessibleLinks s) = true →
          Pool.wg s = 0 ∧ Forall (λ w, w = Pool.WDone) (Pool.workers s))
     ∧ sentFrom env 0 (take (Pool.started s) (pageLinks analysis))
         ≡ₚ PoolInv.collected (Pool.pc s) ++ buf (Pool.inaccessibleLinks s)
              ++ PoolInv.sending (Pool.workers s)
     ∧ (∀ failedLinks err, Pool.pc s = Pool.MReturned failedLinks err →
          failedLinks ≡ₚ sentFrom env 0 (pageLinks analysis)))
  ∧ (∀ s,
       rtc (PerLink.step env) (PerLink.validateLinkAccessibility analysis) s →
       cap (PerLink.inaccessibleLinks s) = length (pageLinks analysis)
       ∧ PerLink.pc s ≠ PerLink.MPanic
       ∧ (∀ j u, PerLink.goroutines s !! j = Some (PerLink.GSend u) →
            closed (PerLink.inaccessibleLinks s) = false
            ∧ hasRoom (PerLink.inaccessibleLinks s) = true)
       ∧ (closed (PerLink.inaccessibleLinks s) = true →
            PerLink.wg s = 0
            ∧ Forall (λ g, g = PerLink.GDone) (PerLink.goroutines s))
       ∧ PerLinkInv.deliveredFrom env 0 (PerLink.goroutines s) (pageLinks analysis)
           ≡ₚ PerLinkInv.collected (PerLink.pc s)
                ++ buf (PerLink.inaccessibleLinks s)
       ∧ (∀ failedLinks err, PerLink.pc s = PerLink.MReturned failedLinks err →
            failedLinks ≡ₚ sentFrom env 0 (pageLinks analysis)))
  ∧ (∀ j url, length (sent (events (probe env j url))) ≤ 1).
Proof.
  split_and!.
  - intros s Hrtc.
    destruct (PoolFacts.pool_reachable env analysis s Hrtc) as [[Hl ->]|[Hl Hinv]].
    + destruct (PoolFacts.pool_empty env analysis Hl) as [-> _].
      rewrite Hl. simpl. split_and!; try done.
      intros fl err [= <- <-]. done.
    + split_and!.
      * by destruct Hinv.
      * destruct Hinv as [_ _ _ _ _ _ _ Hph _]. unfold PoolInv.phaseOk in Hph.
        intros Hpc. by rewrite Hpc in Hph.
      * intros w u. by apply (PoolFacts.send_never_blocks env (pageLinks analysis)).
      * by apply (PoolFacts.closed_after_join env (pageLinks analysis)).
      * rewrite sentFrom_failuresFrom. by destruct Hinv.
      * intros fl err Hpc. rewrite sentFrom_failuresFrom.
        by eapply PoolFacts.returned_result.
  - intros s Hrtc.
    destruct (PerLinkFacts.perlink_reachable env analysis s Hrtc)
      as [[Hl ->]|[Hl Hinv]].
    + destruct (PerLinkFacts.perlink_empty env analysis Hl) as [-> _].
      rewrite Hl. simpl. split_and!; try done.
      intros fl err [= <- <-]. done.
    + split_and!.
      * by destruct Hinv.
      * destruct Hinv as [_ _ _ _ _ _ _ Hph]. unfold PerLinkInv.phaseOk in Hph.
        intros Hpc. by rewrite Hpc in Hph.
      * intros j u.
        by apply (PerLinkFacts.perlink_send_never_blocks env (pageLinks analysis)).
      * by apply (PerLinkFacts.perlink_closed_after_join env (pageLinks analysis)).
      * by destruct Hinv.
      * intros fl err Hpc. rewrite sentFrom_failuresFrom.
        by eapply PerLinkFacts.perlink_returned_result.
  - apply sent_probe_length.
Qed.

Lemma failure_channel_loses_nothing_witness :
  ["http://b.test/"; "http://c.test/"] ≡ₚ sentFrom sampleEnv 0 (pageLinks sampleLinks)
  ∧ ["http://c.test/"; "http://b.test/"] ≡ₚ sentFrom sampleEnv 0 (pageLinks sampleLinks).
Proof.
  destruct (failure_channel_loses_nothing sampleEnv sampleLinks)
    as (Hpool & Hperlink & _).
  split.
  - destruct (Hpool (Pool.exec sampleEnv (pageLinks sampleLinks) poolSchedule
                       (Pool.validateLinkAccessibility sampleLinks)))
      as (_ & _ & _ & _ & _ & Hret); [apply pool_exec_rtc|].
    apply (Hret _ None). reflexivity.
  - destruct (Hperlink (PerLink.exec sampleEnv perLinkSchedule
                          (PerLink.validateLinkAccessibility sampleLinks)))
      as (_ & _ & _ & _ & _ & Hret); [apply perlink_exec_rtc|].
    apply (Hret _ None). reflexivity.
Defined.

(** * The size of the pool *)

(** Snapshot two: never more workers than [min(numWorkers, N)], and
    exactly that many once the spawn loop is left. *)
Lemma pool_spawns_min env analysis s :
  rtc (Pool.step env (pageLinks analysis)) (Pool.validateLinkAccessibility analysis) s →
  length (Pool.workers s) ≤ numWorkers `min` length (pageLinks analysis)
  ∧ ((∀ w, Pool.pc s ≠ Pool.MSpawn w) →
       length (Pool.workers s) = numWorkers `min` length (pageLinks analysis)).
Proof.
  intros Hrtc.
  destruct (PoolFacts.pool_reachable env analysis s Hrtc) as [[Hl ->]|[Hl Hinv]].
  - destruct (PoolFacts.pool_empty env analysis Hl) as [-> _].
    rewrite Hl. simpl. done.
  - destruct (PoolFacts.workers_bound env _ s Hinv) as [Hle Heq].
    rewrite PoolFacts.spawnBound_min in Hle, Heq. split; [lia|].
    intros Hno. rewrite Heq by done. lia.
Qed.

(** Snapshot one: as many goroutines as links. *)
Lemma perlink_spawns_all env analysis s :
  rtc (PerLink.step env) (PerLink.validateLinkAccessibility analysis) s →
  (∀ rest, PerLink.pc s ≠ PerLink.MSpawn rest) →
  length (PerLink.goroutines s) = length (pageLinks analysis).
Proof.
  intros Hrtc Hno.
  destruct (PerLinkFacts.perlink_reachable env analysis s Hrtc)
    as [[Hl ->]|[Hl Hinv]].
  - destruct (PerLinkFacts.perlink_empty env analysis Hl) as [-> _].
    by rewrite Hl.
  - by eapply PerLinkFacts.perlink_goroutines_count.
Qed.

(** C3, on a page with eleven links.  The validator of
    internal/analyzer/network.go has, when its spawn loop is over, eleven
    goroutines probing at once, one more than [min(numWorkers, 11) = 10];
    the validator of the other snapshot has ten workers. *)
Theorem one_goroutine_per_link_exceeds_the_cap :
  length (pageLinks elevenLinks) = 11
  ∧ PerLink.pc (PerLink.exec sampleEnv (mainOnly 12)
                  (PerLink.validateLinkAccessibility elevenLinks)) = PerLink.MWait
  ∧ length (PerLink.goroutines
              (PerLink.exec sampleEnv (mainOnly 12)
                 (PerLink.validateLinkAccessibility elevenLinks))) = 11
  ∧ PerLink.wg (PerLink.exec sampleEnv (mainOnly 12)
                  (PerLink.validateLinkAccessibility elevenLinks)) = 11
  ∧ numWorkers `min` length (pageLinks elevenLinks) = 10
  ∧ length (Pool.workers
              (Pool.exec sampleEnv (pageLinks elevenLinks) (mainOnly 12)
                 (Pool.validateLinkAccessibility elevenLinks))) = 10.
Proof. by vm_compute. Qed.

(** * The page loader's results *)

Lemma fetched_httpGet r : fetched (httpGet r).1 (httpGet r).2 = succeeded r.
Proof. by destruct r. Qed.

(** When the loop runs out after at least one iteration, [data] and [err]
    are what the last [http.Get] returned, and that attempt had failed. *)
Lemma loadLoop_out get n : ∀ i data err slept data' err' slept',
  loadLoop get (S n) i data err slept = inr (data', err', slept') →
  httpGet (get (i + n)) = (data', err') ∧ succeeded (get (i + n)) = false.
Proof.
  induction n as [|n IH]; intros i data err slept data' err' slept' Hout.
  - simpl in Hout. rewrite Nat.add_0_r.
    pose proof (fetched_httpGet (get i)) as Hf.
    destruct (httpGet (get i)) as [d e]. simpl in Hf.
    destruct (fetched d e); simplify_eq. done.
  - change (loadLoop get (S (S n)) i data err slept)
      with (let '(d, e) := httpGet (get i) in
            if fetched d e then inl (default 0%Z d)
            else loadLoop get (S n) (S i) d e
                   (if i <? maxRetries - 1
                    then slept ++ [initialBackoff * 2 ^ Z.of_nat i]%Z
                    else slept)) in Hout.
    destruct (httpGet (get i)) as [d e].
    destruct (fetched d e); [done|].
    apply IH in Hout. by rewrite Nat.add_succ_r.
Qed.

(** Snapshot two never returns a nil response with a nil error. *)
Lemma pool_loadWebPage_error get :
  (Pool.loadWebPage get).1 = None → (Pool.loadWebPage get).2 ≠ None.
Proof.
  unfold Pool.loadWebPage, maxRetries.
  destruct (loadLoop get 3 0 None None []) as [s|[[data err] slept]] eqn:Hloop;
    [done|].
  apply loadLoop_out in Hloop as [Hget _].
  destruct (get (0 + 2)); simplify_eq/=; done.
Qed.

(** Snapshot one does, exactly when the last of three failed attempts
    brought a response. *)
Lemma perlink_loadWebPage_nil get :
  PerLink.loadWebPage get = (None, None)
  ↔ succeeded (get 0) = false ∧ succeeded (get 1) = false
    ∧ ∃ s, get 2 = DoResp s ∧ is2xx s = false.
Proof.
  unfold PerLink.loadWebPage, maxRetries. simpl.
  pose proof (fetched_httpGet (get 0)) as H0.
  pose proof (fetched_httpGet (get 1)) as H1.
  pose proof (fetched_httpGet (get 2)) as H2.
  destruct (httpGet (get 0)) as [d0 e0], (httpGet (get 1)) as [d1 e1].
  destruct (httpGet (get 2)) as [d2 e2] eqn:Hg2. simpl in *.
  rewrite H0, H1, H2.
  destruct (succeeded (get 0)); [split; [done|by intros (? & _)]|].
  destruct (succeeded (get 1)); [split; [done|by intros (_ & ? & _)]|].
  destruct (get 2) as [e|s] eqn:Hget; simplify_eq/=.
  - split; [done|]. by intros (_ & _ & s & ? & _).
  - destruct (is2xx s) eqn:Hs.
    + split; [done|]. intros (_ & _ & s' & [= <-] & ?). congruence.
    + split; [|done]. intros _. eauto.
Qed.

(** C10, on a page whose server answers 500 to every request.  The
    [loadWebPage] of internal/analyzer/network.go returns a nil response
    together with a nil error; the [loadWebPage] of the other snapshot
    returns a nil response and the "access denied" error. *)
Theorem loadWebPage_nil_response_nil_error :
  PerLink.loadWebPage (λ _, DoResp 500) = (None, None)
  ∧ Pool.loadWebPage (λ _, DoResp 500) = (None, Some (AccessDenied 500)).
Proof. by vm_compute. Qed.

(** * The page loader, attempt by attempt *)

(** One iteration of the loader's loop. *)
Lemma loadLoop_step get n i data err slept :
  loadLoop get (S n) i data err slept
  = if succeeded (get i)
    then inl (default 0%Z (httpGet (get i)).1)
    else loadLoop get n (S i) (httpGet (get i)).1 (httpGet (get i)).2
           (if i <? maxRetries - 1
            then slept ++ [(initialBackoff * 2 ^ Z.of_nat i)%Z] else slept).
Proof.
  rewrite <- fetched_httpGet.
  change (loadLoop get (S n) i data err slept)
    with (let '(d, e) := httpGet (get i) in
          if fetched d e then inl (default 0%Z d)
          else loadLoop get n (S i) d e
                 (if i <? maxRetries - 1
                  then slept ++ [initialBackoff * 2 ^ Z.of_nat i]%Z
                  else slept)).
  by destruct (httpGet (get i)).
Qed.

(** The loop returns from inside exactly at the first attempt that
    succeeds. *)
Lemma loadLoop_returns get n : ∀ i data err slept s,
  loadLoop get n i data err slept = inl s
  ↔ ∃ k, k < n ∧ firstSuccess (λ j, get (i + j)) k s.
Proof.
  unfold firstSuccess.
  induction n as [|n IH]; intros i data err slept s.
  { split; [done|]. intros (k & ? & _). lia. }
  rewrite loadLoop_step.
  destruct (succeeded (get i)) eqn:Hi.
  - destruct (get i) as [e|s0] eqn:Hget; [done|]. simpl in *. split.
    + intros [= <-]. exists 0. split; [lia|].
      split_and!; [by rewrite Nat.add_0_r|done|intros; lia].
    + intros (k & _ & Hk & _ & Hbefore). destruct k as [|k].
      * rewrite Nat.add_0_r in Hk. congruence.
      * specialize (Hbefore 0). rewrite Nat.add_0_r, Hget in Hbefore.
        simpl in Hbefore. rewrite Hi in Hbefore. discriminate Hbefore. lia.
  - rewrite IH. split.
    + intros (k & Hlt & Hk & Hs & Hbefore). exists (S k). split; [lia|].
      split_and!; [by rewrite Nat.add_succ_r|done|].
      intros [|j] Hj; [by rewrite Nat.add_0_r|].
      rewrite Nat.add_succ_r. apply Hbefore. lia.
    + intros (k & Hlt & Hk & Hs & Hbefore). destruct k as [|k].
      { rewrite Nat.add_0_r in Hk. rewrite Hk in Hi. simpl in Hi. congruence. }
      exists k. split; [lia|].
      split_and!; [by rewrite Nat.add_succ_r in Hk|done|].
      intros j Hj. specialize (Hbefore (S j)).
      rewrite Nat.add_succ_r in Hbefore. apply Hbefore. lia.
Qed.

(** When all three attempts fail, the loop has slept [1s] and [2s], and
    leaves [data] and [err] as the third [http.Get] set them. *)
Lemma loadLoop_exhausted get :
  (∀ i, i < maxRetries → succeeded (get i) = false) →
  loadLoop get maxRetries 0 None None []
  = inr ((httpGet (get 2)).1, (httpGet (get 2)).2, [1 * Second; 2 * Second]%Z).
Proof.
  intros Hfail. unfold maxRetries in *.
  rewrite !loadLoop_step, !Hfail by lia. done.
Qed.

(** X1.  Both loaders hand back a response exactly when one of the three
    [http.Get] calls was the first to succeed; the response is that call's,
    its status is 2xx, and the error is nil. *)
Theorem loadWebPage_first_success get s :
  (PerLink.loadWebPage get = (Some s, None)
   ↔ ∃ k, k < maxRetries ∧ firstSuccess get k s)
  ∧ (Pool.loadWebPage get = (Some s, None)
     ↔ ∃ k, k < maxRetries ∧ firstSuccess get k s)
  ∧ ((PerLink.loadWebPage get).1 = Some s → PerLink.loadWebPage get = (Some s, None))
  ∧ ((Pool.loadWebPage get).1 = Some s → Pool.loadWebPage get = (Some s, None)).
Proof.
  pose proof (loadLoop_returns get maxRetries 0 None None [] s) as Hloop.
  unfold PerLink.loadWebPage, Pool.loadWebPage.
  destruct (loadLoop get maxRetries 0 None None []) as [s'|[[d e] sl]].
  - split_and!; try (intros; by simplify_eq/=).
    + rewrite <- Hloop. split; intros; by simplify_eq.
    + rewrite <- Hloop. split; intros; by simplify_eq.
  - split_and!; try done.
    + rewrite <- Hloop. done.
    + rewrite <- Hloop. split; [|done]. by destruct d, e.
    + by destruct d, e.
Qed.

(** X2.  The loader of the pool snapshot returns exactly one of a response
    and an error.  It returns an error exactly when all three attempts
    failed, and the error speaks of the last attempt only: its transport
    error, or "access denied" with its response. *)
Theorem pool_loadWebPage_total_failure get :
  ((∃ s, Pool.loadWebPage get = (Some s, None))
   ∨ (∃ e, Pool.loadWebPage get = (None, Some e)))
  ∧ ∀ e, Pool.loadWebPage get = (None, Some e)
         ↔ (∀ i, i < maxRetries → succeeded (get i) = false)
           ∧ e = lastError (get 2).
Proof.
  destruct (succeeded (get 0) || succeeded (get 1) || succeeded (get 2))
    eqn:Hany.
  - assert (∃ s, Pool.loadWebPage get = (Some s, None)) as [s Hs].
    { unfold Pool.loadWebPage, maxRetries.
      destruct (succeeded (get 0)) eqn:H0; [|
      destruct (succeeded (get 1)) eqn:H1; [|
      destruct (succeeded (get 2)) eqn:H2; [|done]]].
      all: rewrite !loadLoop_step, ?H0, ?H1, ?H2; eauto. }
    split; [left; eauto|]. intros e. rewrite Hs. split; [done|].
    intros [Hfail _]. unfold maxRetries in Hfail.
    rewrite !Hfail in Hany by lia. done.
  - assert (∀ i, i < maxRetries → succeeded (get i) = false) as Hfail.
    { unfold maxRetries. intros [|[|[|i]]] Hi; [..|lia].
      all: by destruct (succeeded (get 0)), (succeeded (get 1)),
                (succeeded (get 2)). }
    assert (Pool.loadWebPage get = (None, Some (lastError (get 2)))) as Hres.
    { unfold Pool.loadWebPage. rewrite loadLoop_exhausted by done.
      by destruct (get 2). }
    split; [right; eauto|]. intros e. rewrite Hres. split.
    + intros [= <-]. done.
    + by intros [_ ->].
Qed.

(** X3.  When all three attempts fail, the loader has slept twice, [1s]
    after the first attempt and [2s] after the second, and not after the
    third. *)
Theorem loadWebPage_backoff get :
  (∀ i, i < maxRetries → succeeded (get i) = false) →
  ∃ data err,
    loadLoop get maxRetries 0 None None [] = inr (data, err, [1 * Second; 2 * Second]%Z)
    ∧ httpGet (get 2) = (data, err).
Proof.
  intros Hfail. rewrite loadLoop_exhausted by done.
  eexists _, _. split; [done|]. by destruct (httpGet (get 2)).
Qed.

Lemma loadWebPage_backoff_witness :
  ∃ data err,
    loadLoop (λ _, DoErr ErrRefused) maxRetries 0 None None []
      = inr (data, err, [1 * Second; 2 * Second]%Z)
    ∧ httpGet (DoErr ErrRefused) = (data, err).
Proof. apply (loadWebPage_backoff (λ _, DoErr ErrRefused)). done. Defined.

(** * How long a probe takes *)

(** [client.Do] returns no earlier than it was called and no later than
    the client's timeout allows. *)
Lemma clientDo_time ctx r t :
  (t ≤ (clientDo ctx r t).2 ≤ t + clientTimeout)%Z.
Proof.
  unfold clientDo, ctxDone, clientTimeout, Second.
  pose proof (N2Z.is_nonneg (latency r)).
  destruct (cancelAt ctx) as [c|]; repeat case_match; simpl;
    rewrite ?andb_true_iff, ?andb_false_iff, ?Z.leb_le, ?Z.leb_gt in *; lia.
Qed.

Lemma napTime_retry a st fi r d evs :
  napTime (EvDo a st fi r :: EvSleep d :: evs) = (Z.max 0 d + napTime evs)%Z.
Proof. done. Qed.

(** The loop lasts as long as its sleeps and its calls of [client.Do]. *)
Lemma checkerLoop_time newRequestOK ctx url srv n : ∀ i b t,
  (t + napTime (checkerLoop newRequestOK ctx url srv n i b t).1
   ≤ (checkerLoop newRequestOK ctx url srv n i b t).2
   ≤ t + napTime (checkerLoop newRequestOK ctx url srv n i b t).1
     + Z.of_nat (attempts (checkerLoop newRequestOK ctx url srv n i b t).1)
       * clientTimeout)%Z.
Proof.
  induction n as [|n IH]; intros i b t.
  { unfold napTime, attempts. simpl. lia. }
  destruct (newRequestOK url) eqn:Hok; cycle 1.
  { rewrite checkerLoop_bad_url by done. unfold napTime, attempts. simpl. lia. }
  rewrite checkerLoop_unfold by done. cbv zeta.
  pose proof (clientDo_time ctx (srv i) t) as Hdo.
  destruct (clientDo ctx (srv i) t) as [r t1]. simpl in *.
  destruct (succeeded r); simpl.
  { unfold napTime, attempts. simpl. lia. }
  specialize (IH (S i) (wrap64 (b * 2)) (sleep b t1)).
  rewrite napTime_retry, attempts_do, attempts_sleep.
  unfold sleep, clientTimeout, Second in *. lia.
Qed.

(** The sleeps of a run are an initial stretch of the backoff schedule: a
    run that sends nothing has stopped before the last sleep, and a run
    that sends after its request was built has slept them all. *)
Lemma checkerLoop_sleeps_prefix newRequestOK ctx url srv n : ∀ i b t,
  ∃ m, m ≤ n
       ∧ sleeps (checkerLoop newRequestOK ctx url srv n i b t).1
         = backoffAt b <$> seq 0 m
       ∧ (sent (checkerLoop newRequestOK ctx url srv n i b t).1 = [] → m < n)
       ∧ (newRequestOK url = true →
          sent (checkerLoop newRequestOK ctx url srv n i b t).1 ≠ [] → m = n).
Proof.
  induction n as [|n IH]; intros i b t.
  { exists 0. done. }
  destruct (newRequestOK url) eqn:Hok; cycle 1.
  { rewrite checkerLoop_bad_url by done. exists 0. split_and!; [lia|done..]. }
  rewrite checkerLoop_unfold by done. cbv zeta.
  destruct (succeeded _); simpl.
  { exists 0. split_and!; [lia|done|lia|done]. }
  destruct (IH (S i) (wrap64 (b * 2)) (sleep b (clientDo ctx (srv i) t).2))
    as (m & Hm & Hsl & Hsent & Hall).
  exists (S m). split_and!; [lia| | |].
  - change (sleeps (?e1 :: EvSleep b :: ?evs)) with (b :: sleeps evs).
    rewrite Hsl. simpl. by rewrite <- backoffAt_seq.
  - intros Hnone. apply Hsent in Hnone. lia.
  - intros _ Hsome. f_equal. by apply Hall.
Qed.

(** X4.  A probe ends between its start and [3 * 10s + 7s] later: three
    calls bounded by the client's timeout and the sleeps of 1s, 2s and 4s.
    A probe that finds the link accessible ends within [3 * 10s + 3s]; a
    probe whose request could be built and that reports the link has
    lasted at least the [7s] of its three sleeps. *)
Theorem probe_duration newRequestOK ctx url srv t0 :
  (t0 ≤ finished (linkAccessibilityChecker newRequestOK ctx url srv t0)
   ≤ t0 + 3 * clientTimeout + 7 * Second)%Z
  ∧ (sent (events (linkAccessibilityChecker newRequestOK ctx url srv t0)) = [] →
     (finished (linkAccessibilityChecker newRequestOK ctx url srv t0)
      ≤ t0 + 3 * clientTimeout + 3 * Second)%Z)
  ∧ (newRequestOK url = true →
     sent (events (linkAccessibilityChecker newRequestOK ctx url srv t0)) ≠ [] →
     (t0 + 7 * Second
      ≤ finished (linkAccessibilityChecker newRequestOK ctx url srv t0))%Z).
Proof.
  destruct (linkAccessibilityChecker_loop newRequestOK ctx url srv t0)
    as [-> ->].
  pose proof (checkerLoop_time newRequestOK ctx url srv maxRetries 0
                initialBackoff t0) as Htime.
  pose proof (checkerLoop_attempts_le newRequestOK ctx url srv maxRetries 0
                initialBackoff t0) as Hatt.
  destruct (checkerLoop_sleeps_prefix newRequestOK ctx url srv maxRetries 0
              initialBackoff t0) as (m & Hm & Hsl & Hsent & Hall).
  unfold napTime in Htime. rewrite Hsl in Htime.
  unfold maxRetries in *.
  assert (m = 3 → foldr (λ d acc, Z.max 0 d + acc)%Z 0%Z
                    (backoffAt initialBackoff <$> seq 0 m) = (7 * Second)%Z)
    as H3 by (by intros ->).
  assert (m < 3 → (0 ≤ foldr (λ d acc, Z.max 0 d + acc)%Z 0%Z
                         (backoffAt initialBackoff <$> seq 0 m)
                   ≤ 3 * Second)%Z) as H2.
  { intros Hlt. destruct m as [|[|[|m]]]; [by vm_compute..|lia]. }
  unfold clientTimeout, Second in *.
  split; [|split].
  - destruct (decide (m = 3)) as [->|]; [rewrite H3 in Htime by done|]; lia.
  - intros Hnone. specialize (Hsent Hnone). lia.
  - intros Hok Hsome. rewrite H3 in Htime by auto. lia.
Qed.

Lemma probe_duration_witness :
  (0 + 7 * Second
   ≤ finished (linkAccessibilityChecker anyURL neverCancelled "http://b.test/"
                 (alwaysStatus 500) 0))%Z
  ∧ (finished (linkAccessibilityChecker anyURL neverCancelled "http://a.test/"
                 failsOnce 0)
     ≤ 0 + 3 * clientTimeout + 3 * Second)%Z.
Proof.
  split.
  - apply (probe_duration anyURL neverCancelled "http://b.test/"
             (alwaysStatus 500) 0); [reflexivity|by vm_compute].
  - by apply (probe_duration anyURL neverCancelled "http://a.test/" failsOnce 0).
Defined.

(** * What a caller of the validator can rely on *)

(** What either validator returns, on any interleaving. *)
Lemma pool_returns_failures env analysis failedLinks err :
  Pool.returns env analysis failedLinks err →
  err = None ∧ failedLinks ≡ₚ failures env (pageLinks analysis).
Proof.
  intros (s & Hrtc & Hpc).
  destruct (PoolFacts.pool_reachable env analysis s Hrtc) as [[Hl ->]|[Hl Hinv]].
  - destruct (PoolFacts.pool_empty env analysis Hl) as [Hinit _].
    rewrite Hinit in Hpc. simpl in Hpc. simplify_eq. by rewrite Hl.
  - by eapply PoolFacts.returned_result.
Qed.

Lemma perlink_returns_failures env analysis failedLinks err :
  PerLink.returns env analysis failedLinks err →
  err = None ∧ failedLinks ≡ₚ failures env (pageLinks analysis).
Proof.
  intros (s & Hrtc & Hpc).
  destruct (PerLinkFacts.perlink_reachable env analysis s Hrtc)
    as [[Hl ->]|[Hl Hinv]].
  - destruct (PerLinkFacts.perlink_empty env analysis Hl) as [Hinit _].
    rewrite Hinit in Hpc. simpl in Hpc. simplify_eq. by rewrite Hl.
  - by eapply PerLinkFacts.perlink_returned_result.
Qed.

(** A probe that starts under a cancelled context reports its link,
    whatever the server would have answered. *)
Lemma probe_cancelled env j url :
  ctxDone (envCtx env) (envStart env j) = true →
  inaccessible (probe env j url) = true.
Proof.
  intros Hdone. unfold inaccessible, probe.
  destruct (linkAccessibilityChecker_loop (envRequestOK env) (envCtx env) url
              (envReply env j) (envStart env j)) as [-> _].
  apply bool_decide_eq_true_2.
  destruct (envRequestOK env url) eqn:Hok.
  - destruct (checkerLoop_cancelled (envRequestOK env) (envCtx env) url
                (envReply env j) maxRetries 0 initialBackoff (envStart env j)
                Hok Hdone) as (_ & Hfail & _).
    destruct (checkerLoop_all_failed (envRequestOK env) (envCtx env) url
                (envReply env j) maxRetries 0 initialBackoff (envStart env j)
                Hok Hfail) as (_ & -> & _).
    done.
  - unfold maxRetries. by rewrite checkerLoop_bad_url.
Qed.

Lemma failuresFrom_cancelled env links : ∀ j,
  (∀ j, ctxDone (envCtx env) (envStart env j) = true) →
  failuresFrom env j links = links.
Proof.
  induction links as [|u links IH]; intros j Hdone; [done|].
  simpl. rewrite probe_cancelled by done. simpl. f_equal. by apply IH.
Qed.

(** The failures are a selection of the links, in link order. *)
Lemma failuresFrom_sublist env links : ∀ j,
  failuresFrom env j links `sublist_of` links.
Proof.
  induction links as [|u links IH]; intros j; [done|].
  simpl. destruct (inaccessible _); simpl.
  - by apply sublist_skip.
  - by apply sublist_cons.
Qed.

(** Two runs under a context cancelled from the start. *)
Lemma pool_cancelled_run :
  Pool.returns cancelledEnv sampleLinks
    ["http://b.test/"; "http://c.test/"; "http://a.test/"] None.
Proof.
  exists (Pool.exec cancelledEnv (pageLinks sampleLinks) poolScheduleAllSend
            (Pool.validateLinkAccessibility sampleLinks)).
  split; [apply pool_exec_rtc|by vm_compute].
Qed.

Lemma perlink_cancelled_run :
  PerLink.returns cancelledEnv sampleLinks
    ["http://c.test/"; "http://b.test/"; "http://a.test/"] None.
Proof.
  exists (PerLink.exec cancelledEnv perLinkScheduleAllSend
            (PerLink.validateLinkAccessibility sampleLinks)).
  split; [apply perlink_exec_rtc|by vm_compute].
Qed.

(** X5.  When the context is cancelled before the probes start, both
    validators report every link of the page, accessible or not. *)
Theorem cancelled_validation_reports_every_link env analysis :
  (∀ j, ctxDone (envCtx env) (envStart env j) = true) →
  failures env (pageLinks analysis) = pageLinks analysis
  ∧ (∀ failedLinks err, Pool.returns env analysis failedLinks err →
       failedLinks ≡ₚ pageLinks analysis)
  ∧ (∀ failedLinks err, PerLink.returns env analysis failedLinks err →
       failedLinks ≡ₚ pageLinks analysis).
Proof.
  intros Hdone.
  assert (failures env (pageLinks analysis) = pageLinks analysis) as Hall.
  { by apply failuresFrom_cancelled. }
  split_and!; [done| |].
  - intros fl err Hret. rewrite <- Hall.
    by apply (pool_returns_failures env analysis fl err).
  - intros fl err Hret. rewrite <- Hall.
    by apply (perlink_returns_failures env analysis fl err).
Qed.

Lemma cancelled_validation_reports_every_link_witness :
  failures cancelledEnv (pageLinks sampleLinks) = pageLinks sampleLinks
  ∧ ["http://b.test/"; "http://c.test/"; "http://a.test/"] ≡ₚ pageLinks sampleLinks
  ∧ ["http://c.test/"; "http://b.test/"; "http://a.test/"] ≡ₚ pageLinks sampleLinks.
Proof.
  destruct (cancelled_validation_reports_every_link cancelledEnv sampleLinks)
    as (Hall & Hpool & Hperlink); [reflexivity|].
  split_and!.
  - exact Hall.
  - exact (Hpool _ _ pool_cancelled_run).
  - exact (Hperlink _ _ perlink_cancelled_run).
Defined.

(** X6.  What either validator returns is drawn from the links of the
    page, no link more often than it occurs there; the list is never
    longer than the list of links. *)
Theorem validate_result_within_links env analysis failedLinks err :
  Pool.returns env analysis failedLinks err
  ∨ PerLink.returns env analysis failedLinks err →
  failedLinks ⊆+ pageLinks analysis
  ∧ length failedLinks ≤ length (InternalLinks analysis) + length (ExternalLinks analysis)
  ∧ ∀ u, u ∈ failedLinks → u ∈ InternalLinks analysis ∨ u ∈ ExternalLinks analysis.
Proof.
  intros Hret.
  assert (failedLinks ≡ₚ failures env (pageLinks analysis)) as Hperm.
  { destruct Hret as [Hret|Hret].
    - by apply (pool_returns_failures env analysis failedLinks err).
    - by apply (perlink_returns_failures env analysis failedLinks err). }
  assert (failedLinks ⊆+ pageLinks analysis) as Hsub.
  { rewrite Hperm. apply sublist_submseteq, failuresFrom_sublist. }
  split_and!; [done| |].
  - rewrite <- length_app. by apply submseteq_length.
  - intros u Hu. apply elem_of_app. by eapply elem_of_submseteq.
Qed.

Lemma validate_result_within_links_witness :
  ["http://b.test/"; "http://c.test/"] ⊆+ pageLinks sampleLinks
  ∧ length ["http://b.test/"; "http://c.test/"]
    ≤ length (InternalLinks sampleLinks) + length (ExternalLinks sampleLinks)
  ∧ ∀ u, u ∈ ["http://b.test/"; "http://c.test/"] →
         u ∈ InternalLinks sampleLinks ∨ u ∈ ExternalLinks sampleLinks.
Proof.
  apply (validate_result_within_links sampleEnv sampleLinks _ None).
  left. exact pool_sample_run.
Defined.

(** * The pool at work *)

Lemma sum_alive_le_length (ws : list Pool.Worker) :
  sum_list_with PoolInv.alive ws ≤ length ws.
Proof. induction ws as [|[] ws IH]; simpl; lia. Qed.

Lemma sum_alive_goroutines_le_length (gs : list PerLink.Goroutine) :
  sum_list_with PerLinkInv.alive gs ≤ length gs.
Proof. induction gs as [|[] gs IH]; simpl; lia. Qed.

(** X7.  In every state the pool reaches, the wait group counts the
    workers that have not returned, and there are never more workers than
    [numWorkers] nor more than links. *)
Theorem pool_parallelism_bounded env analysis s :
  rtc (Pool.step env (pageLinks analysis)) (Pool.validateLinkAccessibility analysis) s →
  Pool.wg s = sum_list_with PoolInv.alive (Pool.workers s)
  ∧ Pool.wg s ≤ length (Pool.workers s)
  ∧ length (Pool.workers s) ≤ numWorkers
  ∧ length (Pool.workers s) ≤ length (pageLinks analysis).
Proof.
  intros Hrtc.
  destruct (PoolFacts.pool_reachable env analysis s Hrtc) as [[Hl ->]|[Hl Hinv]].
  - destruct (PoolFacts.pool_empty env analysis Hl) as [-> _].
    simpl. split_and!; [done|lia..].
  - destruct (PoolFacts.workers_bound env _ s Hinv) as [Hle _].
    rewrite PoolFacts.spawnBound_min in Hle.
    pose proof (PoolInv.inv_wg _ _ _ Hinv) as Hwg.
    pose proof (sum_alive_le_length (Pool.workers s)).
    split_and!; [done|lia..].
Qed.

Lemma pool_parallelism_bounded_witness :
  Pool.wg (Pool.exec sampleEnv (pageLinks elevenLinks) (mainOnly 12)
             (Pool.validateLinkAccessibility elevenLinks))
    ≤ length (Pool.workers
                (Pool.exec sampleEnv (pageLinks elevenLinks) (mainOnly 12)
                   (Pool.validateLinkAccessibility elevenLinks)))
  ∧ length (Pool.workers
              (Pool.exec sampleEnv (pageLinks elevenLinks) (mainOnly 12)
                 (Pool.validateLinkAccessibility elevenLinks))) ≤ numWorkers.
Proof.
  destruct (pool_parallelism_bounded sampleEnv elevenLinks
              (Pool.exec sampleEnv (pageLinks elevenLinks) (mainOnly 12)
                 (Pool.validateLinkAccessibility elevenLinks)))
    as (_ & Hwg & Hcap & _); [apply pool_exec_rtc|].
  split; [exact Hwg|exact Hcap].
Defined.

(** X8.  The job queue has room for every link, so main never blocks when
    it hands out a link, and it never sends on a closed queue.  What is
    queued or still to be queued is exactly the links no worker has taken,
    in link order: every link is handed out once. *)
Theorem pool_job_queue env analysis s :
  rtc (Pool.step env (pageLinks analysis)) (Pool.validateLinkAccessibility analysis) s →
  cap (Pool.jobs s) = length (pageLinks analysis)
  ∧ buf (Pool.jobs s) ++ PoolInv.pending (pageLinks analysis) (Pool.pc s)
    = drop (Pool.started s) (pageLinks analysis)
  ∧ (∀ link rest, Pool.pc s = Pool.MEnqueue (link :: rest) →
       closed (Pool.jobs s) = false ∧ hasRoom (Pool.jobs s) = true)
  ∧ (closed (Pool.jobs s) = true →
       buf (Pool.jobs s) = drop (Pool.started s) (pageLinks analysis)).
Proof.
  intros Hrtc.
  destruct (PoolFacts.pool_reachable env analysis s Hrtc) as [[Hl ->]|[Hl Hinv]].
  - destruct (PoolFacts.pool_empty env analysis Hl) as [-> _].
    rewrite Hl. simpl. done.
  - pose proof (PoolInv.inv_cap_jobs _ _ _ Hinv) as Hcap.
    pose proof (PoolInv.inv_jobs _ _ _ Hinv) as Hjobs.
    pose proof (PoolInv.inv_phase _ _ _ Hinv) as Hphase.
    unfold PoolInv.phaseOk in Hphase.
    split_and!; [done|done| |].
    + intros link rest Hpc. rewrite Hpc in Hphase, Hjobs. simpl in Hjobs.
      destruct Hphase as (_ & Hopen & _). split; [done|].
      apply (f_equal length) in Hjobs.
      rewrite length_app, length_drop in Hjobs. simpl in Hjobs.
      unfold hasRoom. apply Nat.ltb_lt. lia.
    + intros Hclosed. rewrite <- Hjobs.
      destruct (Pool.pc s); simpl; destruct_and?; try congruence;
        by rewrite app_nil_r.
Qed.

Lemma pool_job_queue_witness :
  closed (Pool.jobs (Pool.exec sampleEnv (pageLinks sampleLinks) (mainOnly 5)
                       (Pool.validateLinkAccessibility sampleLinks))) = false
  ∧ hasRoom (Pool.jobs (Pool.exec sampleEnv (pageLinks sampleLinks) (mainOnly 5)
                          (Pool.validateLinkAccessibility sampleLinks))) = true.
Proof.
  destruct (pool_job_queue sampleEnv sampleLinks
              (Pool.exec sampleEnv (pageLinks sampleLinks) (mainOnly 5)
                 (Pool.validateLinkAccessibility sampleLinks)))
    as (_ & _ & Hroom & _); [apply pool_exec_rtc|].
  apply (Hroom "http://b.test/" ["http://c.test/"]). reflexivity.
Defined.

(** X9.  Neither validator returns before every goroutine it started has
    returned: at the return the wait group stands at zero, every worker
    has left, the failure channel is drained and (when there were links)
    closed; in the pool every link has been taken from the job queue, in
    the other snapshot there has been one goroutine per link. *)
Theorem validator_joins_before_return env analysis :
  (∀ s failedLinks err,
     rtc (Pool.step env (pageLinks analysis))
       (Pool.validateLinkAccessibility analysis) s →
     Pool.pc s = Pool.MReturned failedLinks err →
     Pool.started s = length (pageLinks analysis)
     ∧ Forall (λ w, w = Pool.WDone) (Pool.workers s)
     ∧ Pool.wg s = 0
     ∧ buf (Pool.jobs s) = []
     ∧ buf (Pool.inaccessibleLinks s) = []
     ∧ (pageLinks analysis ≠ [] →
        closed (Pool.jobs s) = true ∧ closed (Pool.inaccessibleLinks s) = true))
  ∧ (∀ s failedLinks err,
       rtc (PerLink.step env) (PerLink.validateLinkAccessibility analysis) s →
       PerLink.pc s = PerLink.MReturned failedLinks err →
       length (PerLink.goroutines s) = length (pageLinks analysis)
       ∧ Forall (λ g, g = PerLink.GDone) (PerLink.goroutines s)
       ∧ PerLink.wg s = 0
       ∧ buf (PerLink.inaccessibleLinks s) = []
       ∧ (pageLinks analysis ≠ [] →
          closed (PerLink.inaccessibleLinks s) = true)).
Proof.
  split.
  - intros s fl err Hrtc Hpc.
    destruct (PoolFacts.pool_reachable env analysis s Hrtc) as [[Hl ->]|[Hl Hinv]].
    { destruct (PoolFacts.pool_empty env analysis Hl) as [-> _].
      rewrite Hl. simpl. split_and!; done. }
    pose proof (PoolInv.inv_phase _ _ _ Hinv) as Hphase.
    unfold PoolInv.phaseOk in Hphase. rewrite Hpc in Hphase.
    destruct Hphase as (Hlen & Hjc & _ & Hbuf & Hclosed).
    destruct (PoolFacts.closed_after_join env _ s Hinv Hclosed) as [Hwg Hdone].
    assert (Pool.WDone ∈ Pool.workers s) as Hin.
    { destruct (Pool.workers s) as [|w ws] eqn:Hws.
      - simpl in Hlen. rewrite PoolFacts.spawnBound_min in Hlen.
        unfold numWorkers in Hlen. destruct (pageLinks analysis); [done|].
        simpl in Hlen. lia.
      - apply Forall_cons in Hdone as [-> _]. by left. }
    destruct (PoolInv.inv_done _ _ _ Hinv Hin) as [Hjb _].
    pose proof (PoolInv.inv_jobs _ _ _ Hinv) as Hjobs.
    rewrite Hjb, Hpc in Hjobs. simpl in Hjobs. symmetry in Hjobs.
    apply (f_equal length) in Hjobs. rewrite length_drop in Hjobs.
    simpl in Hjobs.
    pose proof (PoolInv.inv_started _ _ _ Hinv).
    split_and!; [lia|done..].
  - intros s fl err Hrtc Hpc.
    destruct (PerLinkFacts.perlink_reachable env analysis s Hrtc)
      as [[Hl ->]|[Hl Hinv]].
    { destruct (PerLinkFacts.perlink_empty env analysis Hl) as [-> _].
      rewrite Hl. simpl. split_and!; done. }
    pose proof (PerLinkInv.inv_phase _ _ _ Hinv) as Hphase.
    unfold PerLinkInv.phaseOk in Hphase. rewrite Hpc in Hphase.
    destruct Hphase as (_ & Hbuf & Hclosed).
    destruct (PerLinkFacts.perlink_closed_after_join env _ s Hinv Hclosed)
      as [Hwg Hdone].
    split_and!; [|done..].
    apply (PerLinkFacts.perlink_goroutines_count env _ s Hinv).
    intros rest. by rewrite Hpc.
Qed.

Lemma validator_joins_before_return_witness :
  Pool.started (Pool.exec sampleEnv (pageLinks sampleLinks) poolSchedule
                  (Pool.validateLinkAccessibility sampleLinks)) = 3
  ∧ length (PerLink.goroutines
              (PerLink.exec sampleEnv perLinkSchedule
                 (PerLink.validateLinkAccessibility sampleLinks))) = 3.
Proof.
  destruct (validator_joins_before_return sampleEnv sampleLinks)
    as [Hpool Hperlink].
  split.
  - assert (Pool.pc (Pool.exec sampleEnv (pageLinks sampleLinks) poolSchedule
                       (Pool.validateLinkAccessibility sampleLinks))
            = Pool.MReturned ["http://b.test/"; "http://c.test/"] None) as Hpc
      by (by vm_compute).
    apply Hpool in Hpc; [exact (proj1 Hpc)|apply pool_exec_rtc].
  - assert (PerLink.pc (PerLink.exec sampleEnv perLinkSchedule
                          (PerLink.validateLinkAccessibility sampleLinks))
            = PerLink.MReturned ["http://c.test/"; "http://b.test/"] None) as Hpc
      by (by vm_compute).
    apply Hperlink in Hpc; [exact (proj1 Hpc)|apply perlink_exec_rtc].
Defined.
